(** * Drone route solver: a shallow embedding of [solver.cpp]

    The program reads a grid of building heights, a battery capacity [B], a
    recharge amount [K] and a set of recharge stations, and runs a
    label-correcting shortest-path search over states
    (row, column, battery, altitude) with a priority queue ordered by time.

    Conventions of the embedding:
    - [int] and [long long] values are integers of [Z]; signed overflow is
      undefined in C++, so the arithmetic is the one of runs without it.
      The constant [INF = LLONG_MAX / 4] is kept as the number it is.
    - [std::map] is a [gmap], [std::set] a [gset], [std::tuple] a tuple.
    - [std::priority_queue] is an interface ([PriorityQueue]): the standard
      fixes that [top] has a least time, not which of several least elements
      it is.  Every theorem holds for every lawful queue; [ListPQ] is one
      such queue, used to run the program on concrete inputs.
    - The two [while] loops take fuel; [None] means the fuel ran out. *)

From stdpp Require Import gmap strings list fin_maps pretty.

Local Open Scope Z_scope.

(** ** States and keys *)

(** [struct State]. *)
Record State := mkState {
  time : Z;
  r : Z;
  c : Z;
  battery : Z;
  altitude : Z
}.

Global Instance State_eq_dec : EqDecision State.
Proof. solve_decision. Defined.

(** [tuple<int,int,ll,ll>]: row, column, battery, altitude. *)
Abbreviation Key := (Z * Z * Z * Z)%type.

Definition krow (k : Key) : Z := k.1.1.1.
Definition kcol (k : Key) : Z := k.1.1.2.
Definition kbat (k : Key) : Z := k.1.2.
Definition kalt (k : Key) : Z := k.2.

(** [make_tuple(cur.r, cur.c, cur.battery, cur.altitude)]. *)
Definition key_of (x : State) : Key := (r x, c x, battery x, altitude x).

(** The queue entry [{t, r, c, b, a}] of a key. *)
Definition entry (t : Z) (k : Key) : State :=
  mkState t (krow k) (kcol k) (kbat k) (kalt k).

(** [tuple<int,int,ll,ll,ll>]: a path record, the key and its time. *)
Abbreviation PathRec := (Z * Z * Z * Z * Z)%type.

Definition rec_row (p : PathRec) : Z := p.1.1.1.1.
Definition rec_col (p : PathRec) : Z := p.1.1.1.2.
Definition rec_battery (p : PathRec) : Z := p.1.1.2.
Definition rec_altitude (p : PathRec) : Z := p.1.2.
Definition rec_time (p : PathRec) : Z := p.2.

Definition mk_rec (k : Key) (t : Z) : PathRec :=
  (krow k, kcol k, kbat k, kalt k, t).

(** [LLONG_MAX / 4]. *)
Definition LLONG_MAX : Z := 9223372036854775807.
Definition INF : Z := LLONG_MAX `quot` 4.

(** ** The priority queue interface *)

(** [priority_queue<State, vector<State>, Cmp>] with
    [Cmp(a, b) = a.time > b.time]: [pq_pop] is [top] followed by [pop], and is
    [None] on an empty queue. *)
Class PriorityQueue := {
  pq_t : Type;
  pq_empty : pq_t;
  pq_push : State → pq_t → pq_t;
  pq_pop : pq_t → option (State * pq_t);
  pq_items : pq_t → list State;
  pq_items_empty : pq_items pq_empty = [];
  pq_items_push x q : pq_items (pq_push x q) ≡ₚ x :: pq_items q;
  pq_pop_None q : pq_pop q = None ↔ pq_items q = [];
  pq_pop_Some q x q' :
    pq_pop q = Some (x, q') →
    pq_items q ≡ₚ x :: pq_items q' ∧
    Forall (λ y, time x ≤ time y) (pq_items q)
}.

(** ** The search *)

(** What the program prints: [-1], or the time and the path. *)
Inductive Output :=
  | Unreachable
  | Found (t : Z) (path : list PathRec).

(** The variables of the loop of [main]. *)
Record Search `{PriorityQueue} := mkSearch {
  dist : gmap Key Z;
  parent : gmap Key Key;
  pq : pq_t;
  bestTime : Z;
  bestState : Key
}.

Arguments mkSearch {_} _ _ _ _ _.

(** [dirs]. *)
Definition dirs : list (Z * Z) := [(0, 1); (0, -1); (1, 0); (-1, 0)].

Section Solver.
Context `{PQ : PriorityQueue}.
Variables (N M : Z) (B K : Z).
Variable height : list (list Z).
Variable recharge : gset (Z * Z).

(** [height[i][j]]; the program reads it at indices inside the grid only. *)
Definition height_at (i j : Z) : Z :=
  default 0 (height !! Z.to_nat i ≫= λ row, row !! Z.to_nat j).

Definition startAlt : Z := height_at 0 0.

(** [cur.r == N-1 && cur.c == M-1]. *)
Definition at_dest (k : Key) : Prop := krow k = N - 1 ∧ kcol k = M - 1.

Global Instance at_dest_dec k : Decision (at_dest k).
Proof. unfold at_dest. apply _. Defined.

(** The body of the [for] over [dirs] up to the computation of [nkey]:
    the state the move in direction [d] leads to, with its time, or [None]
    when the move is skipped by one of the two [continue]s. *)
Definition try_move (cur : State) (d : Z * Z) : option State :=
  let nr := r cur + d.1 in
  let nc := c cur + d.2 in
  if decide (nr < 0 ∨ nr >= N ∨ nc < 0 ∨ nc >= M) then None
  else
    let nt := time cur + 1 in
    let nb := battery cur - 1 in
    let newAlt := altitude cur in
    let '(nt, nb, newAlt) :=
      if decide (height_at nr nc > altitude cur) then
        let climb := height_at nr nc - altitude cur in
        (nt + climb, nb - climb, height_at nr nc)
      else (nt, nb, newAlt) in
    if decide (nb < 0) then None
    else
      let nb := if decide ((nr, nc) ∈ recharge) then Z.min B (nb + K)
                else nb in
      Some (mkState nt nr nc nb newAlt).

(** The end of the body of the [for]: the update of [dist], [parent] and
    the queue for the candidate [y] reached from [key]. *)
Definition relax (key : Key) (s : Search) (y : State) : Search :=
  let nkey := key_of y in
  let improve :=
    match dist s !! nkey with
    | None => true
    | Some t => bool_decide (t > time y)
    end in
  if improve then
    mkSearch (<[nkey := time y]> (dist s)) (<[nkey := key]> (parent s))
             (pq_push y (pq s)) (bestTime s) (bestState s)
  else s.

(** One direction of the [for]. *)
Definition expand1 (cur : State) (s : Search) (d : Z * Z) : Search :=
  match try_move cur d with
  | None => s
  | Some y => relax (key_of cur) s y
  end.

(** [dist.count(key) && dist[key] < cur.time]. *)
Definition stale (s : Search) (cur : State) : bool :=
  match dist s !! key_of cur with
  | None => false
  | Some t => bool_decide (t < time cur)
  end.

(** The body of the [while], after [cur] was popped and [q] is what is left
    of the queue. *)
Definition body (cur : State) (q : pq_t) (s : Search) : Search :=
  let s := mkSearch (dist s) (parent s) q (bestTime s) (bestState s) in
  let key := key_of cur in
  if stale s cur then s
  else if decide (at_dest key) then
    if decide (time cur < bestTime s) then
      mkSearch (dist s) (parent s) (pq s) (time cur) key
    else s
  else foldl (expand1 cur) s dirs.

(** [while (!pq.empty())]. *)
Fixpoint loop (fuel : nat) (s : Search) : option Search :=
  match pq_pop (pq s) with
  | None => Some s
  | Some (cur, q) =>
      match fuel with
      | O => None
      | S fuel => loop fuel (body cur q s)
      end
  end.

(** The state before the loop. [bestState] is a value-initialised tuple. *)
Definition start_key : Key := (0, 0, B, startAlt).

Definition init : Search :=
  mkSearch {[ start_key := startAlt ]} ∅
           (pq_push (mkState startAlt 0 0 B startAlt) pq_empty)
           INF (0, 0, 0, 0).

(** [while (true)] of the reconstruction, last record first.  [dist[cur]]
    and [parent[cur]] give the value-initialised element when the key is
    absent. *)
Fixpoint walk (fuel : nat) (s : Search) (cur : Key) : option (list PathRec) :=
  match fuel with
  | O => None
  | S fuel =>
      let t := default 0 (dist s !! cur) in
      let rec := mk_rec cur t in
      if decide (krow cur = 0 ∧ kcol cur = 0) then Some [rec]
      else (λ l, rec :: l) <$> walk fuel s (default (0, 0, 0, 0) (parent s !! cur))
  end.

(** From the end of the loop to the output. *)
Definition report (fuel : nat) (s : Search) : option Output :=
  if decide (bestTime s = INF) then Some Unreachable
  else (λ l, Found (bestTime s) (reverse l)) <$> walk fuel s (bestState s).

(** The search and the reconstruction, on the same fuel. *)
Definition solve (fuel : nat) : option Output :=
  loop fuel init ≫= report fuel.

(** The state of the search after [n] more iterations of the [while] (or
    fewer, when the queue empties before). *)
Fixpoint iterate (n : nat) (s : Search) : Search :=
  match n with
  | O => s
  | S n =>
      match pq_pop (pq s) with
      | None => s
      | Some (cur, q) => iterate n (body cur q s)
      end
  end.

(** *** The variant that stops at the first destination pop

    The same loop with [break] in place of the [continue] that ends the
    destination branch: the first entry of the destination cell that is
    popped and not stale ends the search. *)
Fixpoint loop_early (fuel : nat) (s : Search) : option Search :=
  match pq_pop (pq s) with
  | None => Some s
  | Some (cur, q) =>
      match fuel with
      | O => None
      | S fuel =>
          let s0 := mkSearch (dist s) (parent s) q (bestTime s) (bestState s) in
          if negb (stale s0 cur) && bool_decide (at_dest (key_of cur))
          then Some (body cur q s)
          else loop_early fuel (body cur q s)
      end
  end.

(** The [time] that is printed, [None] for [-1]. *)
Definition reported_time (s : Search) : option Z :=
  if decide (bestTime s = INF) then None else Some (bestTime s).

(** *** The graph that is searched *)

(** The states the search can enqueue: the start, and every move made from
    a state that is not on the destination cell (the loop expands no
    other). *)
Inductive Reach : State → Prop :=
  | Reach_start : Reach (mkState startAlt 0 0 B startAlt)
  | Reach_move x d y :
      Reach x → ¬ at_dest (key_of x) → d ∈ dirs → try_move x d = Some y →
      Reach y.

(** The routes of the drone: sequences of moves from the state
    (0, 0, B, height[0][0]), the [time] field adding up the cost of the
    moves from 0. *)
Inductive Route : State → Prop :=
  | Route_start : Route (mkState 0 0 0 B startAlt)
  | Route_move x d y :
      Route x → d ∈ dirs → try_move x d = Some y → Route y.

(** *** The invariant of the loop *)

(** The candidate [y] is in [dist] with a time that is not above its own. *)
Definition recorded (s : Search) (y : State) : Prop :=
  ∃ t, dist s !! key_of y = Some t ∧ t ≤ time y.

(** The key [k], in [dist] with time [t], needs no further work: on the
    destination cell it was compared with [bestTime], elsewhere each of its
    moves is recorded. *)
Definition closed (s : Search) (k : Key) (t : Z) : Prop :=
  (at_dest k → bestTime s ≤ t) ∧
  (¬ at_dest k →
   ∀ d y, d ∈ dirs → try_move (entry t k) d = Some y → recorded s y).

(** [extra] holds the entry that was popped and is being expanded. *)
Record Inv (extra : list State) (s : Search) : Prop := {
  inv_start : recorded s (entry startAlt start_key);
  inv_sound k t : dist s !! k = Some t → Reach (entry t k);
  inv_pq x : x ∈ extra ++ pq_items (pq s) → recorded s x;
  inv_closed k t :
    dist s !! k = Some t →
    entry t k ∈ extra ++ pq_items (pq s) ∨ closed s k t;
  inv_parent k p :
    parent s !! k = Some p →
    ∃ tp tk d y,
      dist s !! p = Some tp ∧ dist s !! k = Some tk ∧ ¬ at_dest p ∧
      d ∈ dirs ∧ try_move (entry tp p) d = Some y ∧ key_of y = k ∧
      time y ≤ tk;
  inv_has_parent k t :
    dist s !! k = Some t → k = start_key ∨ is_Some (parent s !! k);
  inv_best :
    bestTime s = INF ∨
    (bestTime s < INF ∧ at_dest (bestState s) ∧
     Reach (entry (bestTime s) (bestState s)) ∧
     recorded s (entry (bestTime s) (bestState s)))
}.

(** *** The keys the search can meet, and the measure of the loop *)

Definition battery_floor : Z := Z.min B (Z.min 0 K).

Definition universe : gset Key :=
  list_to_set
    (start_key ::
     cprod (cprod (cprod (seqZ 0 N) (seqZ 0 M))
                  (seqZ battery_floor (B - battery_floor + 1)))
           (startAlt :: 0 :: mjoin height)).

(** The keys not yet in [dist]. *)
Definition slack (s : Search) : nat := size (universe ∖ dom (dist s)).

(** By how much the times in [dist] can still go down. *)
Definition excess (s : Search) : nat :=
  map_fold (λ _ t acc, (acc + Z.to_nat (t - startAlt))%nat) 0%nat (dist s).

(** *** What is claimed of the output *)

(** The state a path record stands for. *)
Definition rec_state (p : PathRec) : State :=
  mkState (rec_time p) (rec_row p) (rec_col p) (rec_battery p) (rec_altitude p).

Definition rec_key (p : PathRec) : Key :=
  (rec_row p, rec_col p, rec_battery p, rec_altitude p).

(** Each record of the path is one move of the drone after the one before. *)
Definition linked (path : list PathRec) : Prop :=
  ∀ i p q, path !! i = Some p → path !! S i = Some q →
           ∃ d, d ∈ dirs ∧ try_move (rec_state p) d = Some (rec_state q).

(** Consecutive records are on cells next to each other. *)
Definition unit_steps (path : list PathRec) : Prop :=
  ∀ i p q, path !! i = Some p → path !! S i = Some q →
           Z.abs (rec_row q - rec_row p) + Z.abs (rec_col q - rec_col p) = 1.

(** The path goes from the cell (0,0) to the destination cell. *)
Definition origin_to_dest (path : list PathRec) : Prop :=
  (∃ p, head path = Some p ∧ rec_row p = 0 ∧ rec_col p = 0) ∧
  (∃ q, last path = Some q ∧ at_dest (rec_key q)).

(** [t] is the least cost of a route to the destination cell. *)
Definition min_route_cost (t : Z) : Prop :=
  (∃ y, Route y ∧ at_dest (key_of y) ∧ time y = t) ∧
  (∀ y, Route y → at_dest (key_of y) → t ≤ time y).

(** The backward walk of the reconstruction, as a relation. *)
Inductive Trail (s : Search) : Key → list PathRec → Prop :=
  | Trail_origin k :
      krow k = 0 ∧ kcol k = 0 →
      Trail s k [mk_rec k (default 0 (dist s !! k))]
  | Trail_parent k l :
      ¬ (krow k = 0 ∧ kcol k = 0) →
      Trail s (default (0, 0, 0, 0) (parent s !! k)) l →
      Trail s k (mk_rec k (default 0 (dist s !! k)) :: l).

(** *** Relations used in the proofs *)

(** [dist] only goes down. *)
Definition improves (s s' : Search) : Prop :=
  (∀ z, recorded s z → recorded s' z) ∧
  bestTime s' = bestTime s ∧ bestState s' = bestState s.

(** The first two components of the measure, in lexicographic order. *)
Definition progress (s' s : Search) : Prop :=
  (slack s' < slack s)%nat ∨ (slack s' = slack s ∧ (excess s' < excess s)%nat).

(** The whole measure: slack, then excess, then the length of the queue. *)
Definition smaller (s' s : Search) : Prop :=
  progress s' s ∨
  (slack s' = slack s ∧ excess s' = excess s ∧
   (length (pq_items (pq s')) < length (pq_items (pq s)))%nat).

(** The records of a walk, last record first: each is after its successor in
    the list by one move. *)
Definition back_linked (l : list PathRec) : Prop :=
  ∀ i q p, l !! i = Some q → l !! S i = Some p →
           ∃ d, d ∈ dirs ∧ try_move (rec_state p) d = Some (rec_state q).

(** The state the search ends in decides the output. *)
Definition output_of (s : Search) (o : Output) : Prop :=
  (bestTime s = INF ∧ o = Unreachable) ∨
  (bestTime s ≠ INF ∧
   ∃ l, Trail s (bestState s) l ∧ o = Found (bestTime s) (reverse l)).

End Solver.

(** ** Output *)

Definition dquote : string := String (Ascii.ascii_of_nat 34%nat) EmptyString.
Definition newline : string := String (Ascii.ascii_of_nat 10%nat) EmptyString.

(** One line of the [for] over [path], without the separator. *)
Definition render_rec (p : PathRec) : string :=
  "    {" +:+ dquote +:+ "row" +:+ dquote +:+ ":" +:+ pretty (rec_row p) +:+
  "," +:+ dquote +:+ "col" +:+ dquote +:+ ":" +:+ pretty (rec_col p) +:+
  "," +:+ dquote +:+ "battery" +:+ dquote +:+ ":" +:+ pretty (rec_battery p) +:+
  "," +:+ dquote +:+ "altitude" +:+ dquote +:+ ":" +:+ pretty (rec_altitude p) +:+
  "," +:+ dquote +:+ "time" +:+ dquote +:+ ":" +:+ pretty (rec_time p) +:+ "}".

Fixpoint render_path (path : list PathRec) : string :=
  match path with
  | [] => EmptyString
  | [p] => render_rec p +:+ newline
  | p :: rest => render_rec p +:+ "," +:+ newline +:+ render_path rest
  end.

(** What is written to [cout]. *)
Definition render (o : Output) : string :=
  match o with
  | Unreachable => "-1" +:+ newline
  | Found t path =>
      "{" +:+ newline +:+
      "  " +:+ dquote +:+ "time" +:+ dquote +:+ ": " +:+ pretty t +:+ "," +:+ newline +:+
      "  " +:+ dquote +:+ "path" +:+ dquote +:+ ": [" +:+ newline +:+
      render_path path +:+
      "  ]" +:+ newline +:+
      "}" +:+ newline
  end.

(** ** Input *)

(** [cin], as the integers still to be read and the stream's state.  Every
    token is a decimal integer that fits the variable it is read into. *)
Record istream := mkIn {
  tokens : list Z;
  good : bool
}.

(** [cin >> v] for a variable holding [old]: a failed extraction, or one on a
    stream that has failed, leaves the variable as it was. *)
Definition extract (old : Z) (i : istream) : Z * istream :=
  if good i then
    match tokens i with
    | [] => (old, mkIn [] false)
    | t :: ts => (t, mkIn ts true)
    end
  else (old, i).

(** The values that [S], [r] and [c], which are declared without an
    initialiser, hold when an extraction into them fails. *)
Record Indeterminate := mkIndet {
  indet_S : Z;
  indet_r : Z;
  indet_c : Z
}.

(** The inner [for] of the height loop; the vector is zero-initialised. *)
Fixpoint read_row (m : nat) (i : istream) : list Z * istream :=
  match m with
  | O => ([], i)
  | S m =>
      let '(v, i) := extract 0 i in
      let '(row, i) := read_row m i in
      (v :: row, i)
  end.

Fixpoint read_height (n m : nat) (i : istream) : list (list Z) * istream :=
  match n with
  | O => ([], i)
  | S n =>
      let '(row, i) := read_row m i in
      let '(rows, i) := read_height n m i in
      (row :: rows, i)
  end.

(** The [for] over the [S] stations. *)
Fixpoint read_recharge (u : Indeterminate) (n : nat) (i : istream)
    (acc : gset (Z * Z)) : gset (Z * Z) * istream :=
  match n with
  | O => (acc, i)
  | S n =>
      let '(r, i) := extract (indet_r u) i in
      let '(c, i) := extract (indet_c u) i in
      read_recharge u n i ({[ (r - 1, c - 1) ]} ∪ acc)
  end.

(** How a run of [main] ends. *)
Inductive Run :=
  | OutOfFuel
  | Abort
  | Exit (out : string).

(** [main].  A grid without rows or columns has no [height[0][0]], and a
    negative dimension makes the vector's constructor throw: these runs are
    [Abort]. *)
Definition main `{PQ : PriorityQueue} (u : Indeterminate) (fuel : nat)
    (input : list Z) : Run :=
  let i := mkIn input true in
  let '(N, i) := extract 0 i in
  let '(M, i) := extract 0 i in
  let '(B, i) := extract 0 i in
  let '(K, i) := extract 0 i in
  if negb (good i) then Exit EmptyString
  else if decide (N < 1 ∨ M < 1) then Abort
  else
    let '(height, i) := read_height (Z.to_nat N) (Z.to_nat M) i in
    let '(S', i) := extract (indet_S u) i in
    let '(recharge, i) := read_recharge u (Z.to_nat S') i ∅ in
    match solve N M B K height recharge fuel with
    | None => OutOfFuel
    | Some o => Exit (render o)
    end.

(** The number of tokens a complete input has: the header, the heights, the
    count of stations and a pair for each. *)
Definition required_tokens (input : list Z) : Z :=
  match input with
  | N :: M :: B :: K :: rest =>
      let cells := Z.max 0 N * Z.max 0 M in
      match drop (Z.to_nat cells) rest with
      | S' :: _ => 4 + cells + 1 + 2 * Z.max 0 S'
      | [] => 4 + cells + 1
      end
  | _ => 4
  end.

(** The tokens of a complete input, in the order [main] reads them: the
    header, the heights row by row, the count of stations and their
    1-indexed pairs. *)
Definition encode_stations (stations : list (Z * Z)) : list Z :=
  stations ≫= λ p, [p.1; p.2].

Definition encode_input (N M B K : Z) (height : list (list Z))
    (stations : list (Z * Z)) : list Z :=
  [N; M; B; K] ++ mjoin height ++
  [Z.of_nat (length stations)] ++ encode_stations stations.

(** The recharge set [main] builds from the pairs it reads. *)
Definition station_set (stations : list (Z * Z)) : gset (Z * Z) :=
  list_to_set ((λ p, (p.1 - 1, p.2 - 1)) <$> stations).

(** ** A queue to run with: a list, popped at its first least element *)

Fixpoint extract_min (l : list State) : option (State * list State) :=
  match l with
  | [] => None
  | x :: l' =>
      match extract_min l' with
      | None => Some (x, [])
      | Some (y, rest) =>
          if decide (time x ≤ time y) then Some (x, l') else Some (y, x :: rest)
      end
  end.

#[export] Program Instance ListPQ : PriorityQueue := {|
  pq_t := list State;
  pq_empty := [];
  pq_push x q := x :: q;
  pq_pop := extract_min;
  pq_items q := q
|}.
Next Obligation. done. Qed.
Next Obligation. done. Qed.
Next Obligation.
  intros l. destruct l as [|x l]; simpl; [done|].
  destruct (extract_min l) as [[y rest]|]; [case_decide|]; done.
Qed.
Next Obligation.
  intros l. induction l as [|a l IH]; intros x l'; simpl; [done|].
  destruct (extract_min l) as [[y rest]|] eqn:E.
  - destruct (IH _ _ eq_refl) as [Hp Hall]. case_decide; intros [= <- <-].
    + split; [done|]. constructor; [lia|].
      eapply Forall_impl; [exact Hall|]. simpl. intros; lia.
    + split; [by rewrite Hp; apply Permutation_swap|].
      constructor; [lia|done].
  - destruct l as [|b l]; [|simpl in E; destruct (extract_min l) as [[? ?]|]; [case_decide|]; done].
    intros [= <- <-]. split; [done|]. constructor; [lia|constructor].
Qed.


(** * Properties *)

Section Properties.
Context `{PQ : PriorityQueue}.
Variables (N M : Z) (B K : Z).
Variable height : list (list Z).
Variable recharge : gset (Z * Z).

Local Abbreviation try_move := (try_move N M B K height recharge).
Local Abbreviation height_at := (height_at height).
Local Abbreviation startAlt := (startAlt height).
Local Abbreviation start_key := (start_key B height).
Local Abbreviation at_dest := (at_dest N M).
Local Abbreviation Reach := (Reach N M B K height recharge).
Local Abbreviation Route := (Route N M B K height recharge).
Local Abbreviation relax := (relax (PQ:=PQ)).
Local Abbreviation expand1 := (expand1 N M B K height recharge).
Local Abbreviation body := (body N M B K height recharge).
Local Abbreviation loop := (loop N M B K height recharge).
Local Abbreviation loop_early := (loop_early N M B K height recharge).
Local Abbreviation iterate := (iterate N M B K height recharge).
Local Abbreviation init := (init B height).
Local Abbreviation solve := (solve N M B K height recharge).
Local Abbreviation recorded := (recorded (PQ:=PQ)).
Local Abbreviation closed := (closed N M B K height recharge).
Local Abbreviation Inv := (Inv N M B K height recharge).
Local Abbreviation universe := (universe N M B K height).
Local Abbreviation slack := (slack N M B K height).
Local Abbreviation excess := (excess height).
Local Abbreviation linked := (linked N M B K height recharge).
Local Abbreviation origin_to_dest := (origin_to_dest N M).
Local Abbreviation min_route_cost := (min_route_cost N M B K height recharge).
Local Abbreviation walk := (walk (PQ:=PQ)).
Local Abbreviation report := (report (PQ:=PQ)).
Local Abbreviation Trail := (Trail (PQ:=PQ)).
Local Abbreviation improves := (improves (PQ:=PQ)).
Local Abbreviation progress := (progress N M B K height).
Local Abbreviation smaller := (smaller N M B K height).
Local Abbreviation back_linked := (back_linked N M B K height recharge).
Local Abbreviation output_of := (output_of (PQ:=PQ)).

(** ** Moves *)

Lemma key_of_entry t k : key_of (entry t k) = k.
Proof. by destruct k as [[[??]?]?]. Qed.

Lemma entry_key_of x : entry (time x) (key_of x) = x.
Proof. by destruct x. Qed.

Lemma elem_of_dirs d :
  d ∈ dirs ↔ d = (0, 1) ∨ d = (0, -1) ∨ d = (1, 0) ∨ d = (-1, 0).
Proof. unfold dirs. rewrite !elem_of_cons, elem_of_nil. tauto. Qed.

(** What a generated move is, field by field. *)
Lemma try_move_Some cur d y :
  try_move cur d = Some y →
  let nr := r cur + d.1 in
  let nc := c cur + d.2 in
  let climb := Z.max 0 (height_at nr nc - altitude cur) in
  0 ≤ nr < N ∧ 0 ≤ nc < M ∧
  r y = nr ∧ c y = nc ∧
  time y = time cur + 1 + climb ∧
  altitude y = Z.max (altitude cur) (height_at nr nc) ∧
  0 ≤ battery cur - 1 - climb ∧
  battery y = (if decide ((nr, nc) ∈ recharge)
               then Z.min B (battery cur - 1 - climb + K)
               else battery cur - 1 - climb).
Proof.
  unfold try_move. intros H. simpl.
  repeat case_decide; simplify_eq/=; repeat split; try lia;
    try (case_decide; try done; f_equal; lia).
Qed.

(** The move does not depend on the time of the state it is made from,
    which it only adds to. *)
Lemma try_move_entry t t' k d y :
  try_move (entry t k) d = Some y →
  try_move (entry t' k) d = Some (entry (t' + (time y - t)) (key_of y)).
Proof.
  unfold try_move. simpl.
  repeat case_decide; intros ?; simplify_eq/=; try done;
    f_equal; unfold entry, key_of, krow, kcol, kbat, kalt; simpl;
    f_equal; lia.
Qed.

Lemma try_move_time_lt cur d y : try_move cur d = Some y → time cur < time y.
Proof. intros H%try_move_Some. simpl in H. lia. Qed.

Lemma try_move_moves cur d y :
  d ∈ dirs → try_move cur d = Some y → key_of y ≠ key_of cur.
Proof.
  intros Hd H%try_move_Some. simpl in H. apply elem_of_dirs in Hd.
  unfold key_of. intros [=].
  destruct Hd as [-> | [-> | [-> | ->]]]; simpl in *; lia.
Qed.

(** ** Preservation of the invariant *)

Lemma improves_refl s : improves s s.
Proof. by split. Qed.

Lemma improves_trans s1 s2 s3 : improves s1 s2 → improves s2 s3 → improves s1 s3.
Proof. intros (?&?&?) (?&?&?). split; [auto|split; congruence]. Qed.

Lemma closed_improves s s' k t : improves s s' → closed s k t → closed s' k t.
Proof.
  intros (Hrec & Hbt & _) [Hd Hm]. split.
  - rewrite Hbt. done.
  - intros Hnd d y Hin Hy. eauto.
Qed.

Lemma relax_improves key s y : improves s (relax key s y) ∧ recorded (relax key s y) y.
Proof.
  unfold relax, improves, recorded.
  destruct (dist s !! key_of y) as [t|] eqn:E; [case_bool_decide|]; simpl.
  - split; [split; [|done]|].
    + intros z (tz & Hz & Hle). destruct (decide (key_of z = key_of y)) as [e|ne].
      * rewrite e in *. simplify_eq. exists (time y). rewrite lookup_insert_eq.
        split; [done|lia].
      * exists tz. by rewrite lookup_insert_ne.
    + exists (time y). by rewrite lookup_insert_eq.
  - split; [by split|]. exists t. split; [done|lia].
  - split; [split; [|done]|].
    + intros z (tz & Hz & Hle). destruct (decide (key_of z = key_of y)) as [e|ne].
      * rewrite e in *. simplify_eq.
      * exists tz. by rewrite lookup_insert_ne.
    + exists (time y). by rewrite lookup_insert_eq.
Qed.

Lemma relax_items key s y :
  pq_items (pq (relax key s y)) ≡ₚ pq_items (pq s) ∨
  pq_items (pq (relax key s y)) ≡ₚ y :: pq_items (pq s).
Proof.
  unfold relax.
  destruct (dist s !! key_of y) as [t|]; [case_bool_decide|]; simpl;
    auto using pq_items_push.
Qed.

Lemma relax_items_incl key s y x :
  x ∈ pq_items (pq s) → x ∈ pq_items (pq (relax key s y)).
Proof.
  intros Hx. destruct (relax_items key s y) as [-> | ->]; [done|].
  apply elem_of_cons. by right.
Qed.

(** [relax] either leaves the state as it is or records the candidate. *)
Lemma relax_cases key s y :
  relax key s y = s ∨
  (relax key s y =
     mkSearch (<[key_of y := time y]> (dist s)) (<[key_of y := key]> (parent s))
              (pq_push y (pq s)) (bestTime s) (bestState s) ∧
   ∀ t0, dist s !! key_of y = Some t0 → time y < t0).
Proof.
  unfold relax.
  destruct (dist s !! key_of y) as [t|]; [case_bool_decide|]; auto;
    right; (split; [done|]); intros ? ?; simplify_eq; lia.
Qed.

Lemma relax_Inv extra cur d s y :
  Inv extra s → Reach cur → recorded s cur → ¬ at_dest (key_of cur) →
  d ∈ dirs → try_move cur d = Some y →
  Inv extra (relax (key_of cur) s y).
Proof.
  intros HI Hcur Hrec Hnd Hd Hy.
  destruct (relax_improves (key_of cur) s y) as [Himp Hry].
  pose proof (try_move_moves _ _ _ Hd Hy) as Hne.
  assert (Reach y) as HRy by (eapply Reach_move; eauto).
  assert (∀ x, x ∈ extra ++ pq_items (pq s) →
               x ∈ extra ++ pq_items (pq (relax (key_of cur) s y))) as Hincl.
  { intros x [?|?]%elem_of_app; apply elem_of_app; auto using relax_items_incl. }
  destruct (relax_cases (key_of cur) s y) as [->|[Heq Hlt]]; [done|].
  rewrite Heq in *. clear Heq.
  destruct HI as [H1 H2 H3 H4 H5 H6 H7]; split; simpl.
  - by apply Himp.
  - intros k t. rewrite lookup_insert. case_decide as Hk.
    + intros [= <-]. subst k. by rewrite entry_key_of.
    + apply H2.
  - intros x [Hx|Hx]%elem_of_app.
    + apply Himp, H3, elem_of_app. by left.
    + rewrite pq_items_push in Hx. apply elem_of_cons in Hx as [-> | Hx]; [done|].
      apply Himp, H3, elem_of_app. by right.
  - intros k t. rewrite lookup_insert. case_decide as Hk.
    + intros [= <-]. subst k. left. apply elem_of_app. right.
      rewrite pq_items_push, entry_key_of. by left.
    + intros Hkt. destruct (H4 _ _ Hkt) as [Hin|Hcl].
      * left. by apply Hincl.
      * right. by eapply closed_improves.
  - intros k p. rewrite lookup_insert. case_decide as Hk.
    + intros [= <-]. subst k. destruct Hrec as (tp & Htp & Hle).
      exists tp, (time y), d, (entry (tp + (time y - time cur)) (key_of y)).
      rewrite lookup_insert_ne by done. rewrite lookup_insert_eq.
      split_and!; auto using key_of_entry.
      * apply try_move_entry. by rewrite entry_key_of.
      * simpl. lia.
    + intros Hp.
      destruct (H5 _ _ Hp) as (tp & tk & d' & y' & Hdp & Hdk & ? & ? & Hm & ? & ?).
      rewrite (lookup_insert_ne _ _ k) by done.
      destruct (decide (key_of y = p)) as [<-|Hnp].
      * exists (time y), tk, d', (entry (time y + (time y' - tp)) (key_of y')).
        rewrite lookup_insert_eq. split_and!; auto using key_of_entry.
        -- by apply try_move_entry.
        -- simpl. specialize (Hlt _ Hdp). lia.
      * exists tp, tk, d', y'. rewrite lookup_insert_ne by done. done.
  - intros k t. rewrite lookup_insert. case_decide as Hk.
    + intros _. right. subst k. rewrite lookup_insert_eq. by eexists.
    + intros Hkt. rewrite lookup_insert_ne by done. by eapply H6.
  - destruct H7 as [?|(?&?&?&?)]; [by left|right; split_and!; auto].
    by apply Himp.
Qed.

Lemma expand1_Inv extra cur s d :
  Inv extra s → Reach cur → recorded s cur → ¬ at_dest (key_of cur) →
  d ∈ dirs →
  Inv extra (expand1 cur s d) ∧ improves s (expand1 cur s d) ∧
  ∀ y, try_move cur d = Some y → recorded (expand1 cur s d) y.
Proof.
  intros HI Hcur Hrec Hnd Hd. unfold expand1.
  destruct (try_move cur d) as [y|] eqn:Hy.
  - split; [by eapply relax_Inv|].
    destruct (relax_improves (key_of cur) s y) as [? ?].
    split; [done|]. by intros ? [= <-].
  - split; [done|]. split; [apply improves_refl|done].
Qed.

Lemma expand_Inv extra cur ds :
  Reach cur → ¬ at_dest (key_of cur) → (∀ d, d ∈ ds → d ∈ dirs) →
  ∀ s, Inv extra s → recorded s cur →
  Inv extra (foldl (expand1 cur) s ds) ∧
  improves s (foldl (expand1 cur) s ds) ∧
  ∀ d y, d ∈ ds → try_move cur d = Some y →
         recorded (foldl (expand1 cur) s ds) y.
Proof.
  intros Hcur Hnd. induction ds as [|d ds IH]; intros Hds s HI Hrec; simpl.
  - split; [done|]. split; [apply improves_refl|]. by intros ?? ?%elem_of_nil.
  - destruct (expand1_Inv extra cur s d) as (HI1 & Himp1 & Hrec1); auto.
    { apply Hds. by left. }
    destruct (IH (λ d' Hd', Hds d' (proj2 (elem_of_cons _ _ _) (or_intror Hd')))
                 (expand1 cur s d) HI1) as (HI2 & Himp2 & Hrec2).
    { by apply Himp1. }
    split; [done|]. split; [by eapply improves_trans|].
    intros d' y [-> | Hd']%elem_of_cons Hy.
    + apply Himp2. by apply Hrec1.
    + by eapply Hrec2.
Qed.

(** The invariant looks at the pending entries as a set. *)
Lemma Inv_pending extra extra' s s' :
  dist s' = dist s → parent s' = parent s →
  bestTime s' = bestTime s → bestState s' = bestState s →
  (∀ x, x ∈ extra ++ pq_items (pq s) ↔ x ∈ extra' ++ pq_items (pq s')) →
  Inv extra s → Inv extra' s'.
Proof.
  intros Hd Hp Hbt Hbs Hiff [H1 H2 H3 H4 H5 H6 H7].
  assert (∀ z, recorded s z ↔ recorded s' z) as Hrec.
  { intros z. unfold recorded. by rewrite Hd. }
  assert (∀ k t, closed s k t → closed s' k t) as Hcl.
  { intros k t [Ha Hb]. split; [by rewrite Hbt|].
    intros ? ? ? ? ?. apply Hrec. eauto. }
  split.
  - by apply Hrec.
  - intros k t. rewrite Hd. apply H2.
  - intros x Hx. apply Hrec, H3, Hiff, Hx.
  - intros k t. rewrite Hd. intros Hkt.
    destruct (H4 _ _ Hkt) as [?|?]; [left; by apply Hiff|right; auto].
  - intros k p. rewrite Hp, Hd. apply H5.
  - intros k t. rewrite Hd, Hp. apply H6.
  - rewrite Hbt, Hbs. destruct H7 as [?|(?&?&?&?)]; [by left|right].
    split_and!; auto. by apply Hrec.
Qed.

(** Dropping the expanded entry once it is closed. *)
Lemma Inv_close cur s :
  Inv [cur] s →
  (∀ t, dist s !! key_of cur = Some t → t = time cur →
        closed s (key_of cur) t) →
  Inv [] s.
Proof.
  intros [H1 H2 H3 H4 H5 H6 H7] Hcl. split; try done.
  - intros x Hx. apply H3. simpl. apply elem_of_cons. by right.
  - intros k t Hkt. destruct (H4 _ _ Hkt) as [Hin|?]; [|by right].
    simpl in Hin. apply elem_of_cons in Hin as [Heq|Hin]; [|by left].
    right. subst cur. rewrite key_of_entry in Hcl. by apply Hcl.
Qed.

Lemma stale_true s cur :
  stale s cur = true ↔ ∃ t, dist s !! key_of cur = Some t ∧ t < time cur.
Proof.
  unfold stale. destruct (dist s !! key_of cur) as [t|].
  - rewrite bool_decide_eq_true. split; [eauto|]. by intros (? & [= <-] & ?).
  - split; [done|]. by intros (? & ? & ?).
Qed.

(** One iteration of the [while] keeps the invariant. *)
Lemma body_Inv s cur q :
  Inv [] s → pq_pop (pq s) = Some (cur, q) → Inv [] (body cur q s).
Proof.
  intros HI Hpop. apply pq_pop_Some in Hpop as [Hperm _].
  set (s0 := mkSearch (dist s) (parent s) q (bestTime s) (bestState s)).
  assert (Inv [cur] s0) as HI0.
  { eapply Inv_pending; [..|exact HI]; try done.
    intros x. simpl. by rewrite Hperm. }
  assert (recorded s0 cur) as Hrec.
  { apply (inv_pq _ _ _ _ _ _ _ _ HI0). simpl. by left. }
  unfold body. fold s0.
  destruct (stale s0 cur) eqn:Hst.
  { apply stale_true in Hst as (t & Ht & Hlt).
    eapply Inv_close; [exact HI0|]. intros t' Ht' ->. simplify_eq. lia. }
  assert (dist s0 !! key_of cur = Some (time cur)) as Hdc.
  { destruct Hrec as (t & Ht & Hle). rewrite Ht. f_equal.
    destruct (decide (t < time cur)) as [Hlt|]; [|lia].
    assert (stale s0 cur = true) as Hs by (apply stale_true; eauto).
    congruence. }
  assert (Reach cur) as Hcur.
  { rewrite <-(entry_key_of cur). by apply (inv_sound _ _ _ _ _ _ _ _ HI0). }
  case_decide as Hdest.
  - case_decide as Hbt.
    + destruct HI0 as [H1 H2 H3 H4 H5 H6 H7].
      apply (Inv_close cur).
      * split; simpl; try done.
        -- intros k t Hkt. destruct (H4 _ _ Hkt) as [?|[Ha Hb]]; [by left|].
           right. split; simpl; [|done]. intros Hk. specialize (Ha Hk).
           unfold s0 in *. simpl in *. lia.
        -- right. split_and!; auto; rewrite ?entry_key_of; try done.
           destruct H7 as [?|(?&_)]; unfold s0 in *; simpl in *; lia.
      * intros t _ ->. split; simpl; [lia|done].
    + eapply Inv_close; [exact HI0|]. intros t _ ->. split; [|done].
      intros _. lia.
  - destruct (expand_Inv [cur] cur dirs Hcur Hdest (λ _ H, H) s0 HI0 Hrec)
      as (HI1 & Himp & Hall).
    eapply Inv_close; [exact HI1|]. intros t _ ->. split; [done|].
    intros _ d y Hd Hy. rewrite entry_key_of in Hy. eauto.
Qed.

Lemma init_Inv : Inv [] init.
Proof.
  assert (recorded init (entry startAlt start_key)) as Hrec.
  { exists startAlt. unfold init; simpl. by rewrite lookup_singleton_eq. }
  split; simpl.
  - done.
  - intros k t [<- <-]%lookup_singleton_Some. apply Reach_start.
  - intros x Hx. rewrite pq_items_push, pq_items_empty in Hx.
    apply list_elem_of_singleton in Hx as ->. done.
  - intros k t [<- <-]%lookup_singleton_Some. left.
    rewrite pq_items_push, pq_items_empty. by left.
  - intros k p. by rewrite lookup_empty.
  - intros k t [<- <-]%lookup_singleton_Some. by left.
  - by left.
Qed.

Lemma iterate_Inv n s : Inv [] s → Inv [] (iterate n s).
Proof.
  revert s. induction n as [|n IH]; intros s HI; simpl; [done|].
  destruct (pq_pop (pq s)) as [[cur q]|] eqn:Hpop; [|done].
  by apply IH, body_Inv.
Qed.

(** ** What every reachable state satisfies *)

Lemma height_at_elem i j : height_at i j ∈ 0 :: mjoin height.
Proof.
  unfold height_at.
  destruct (height !! Z.to_nat i) as [row|] eqn:Hi; simpl; [|by left].
  destruct (row !! Z.to_nat j) as [v|] eqn:Hj; simpl; [|by left].
  right. apply list_elem_of_join. exists row.
  split; apply list_elem_of_lookup; eauto.
Qed.

Lemma Reach_time x : Reach x → startAlt ≤ time x.
Proof.
  induction 1 as [|x d y _ IH _ _ Hy]; simpl; [lia|].
  apply try_move_time_lt in Hy. lia.
Qed.

Lemma Reach_battery x : Reach x → battery_floor B K ≤ battery x ≤ B.
Proof.
  unfold battery_floor.
  induction 1 as [|x d y _ IH _ _ Hy]; simpl; [lia|].
  apply try_move_Some in Hy. simpl in Hy.
  destruct Hy as (_ & _ & _ & _ & _ & _ & Hnb & ->). case_decide; lia.
Qed.

Lemma Reach_altitude x : Reach x → altitude x ∈ startAlt :: 0 :: mjoin height.
Proof.
  induction 1 as [|x d y _ IH _ _ Hy]; simpl; [by left|].
  apply try_move_Some in Hy. simpl in Hy.
  destruct Hy as (_ & _ & _ & _ & _ & -> & _).
  destruct (Z.max_spec (altitude x) (height_at (r x + d.1) (c x + d.2)))
    as [[_ ->]|[_ ->]]; [|done].
  right. apply height_at_elem.
Qed.

Lemma Reach_cell x :
  Reach x → key_of x = start_key ∨ (0 ≤ r x < N ∧ 0 ≤ c x < M).
Proof.
  destruct 1 as [|x d y _ _ _ Hy]; [by left|].
  apply try_move_Some in Hy. simpl in Hy. right. lia.
Qed.

Lemma Reach_universe x : Reach x → key_of x ∈ universe.
Proof.
  intros Hx. unfold universe. apply elem_of_list_to_set, elem_of_cons.
  destruct (Reach_cell x Hx) as [?|[??]]; [by left|right].
  pose proof (Reach_battery x Hx). pose proof (Reach_altitude x Hx).
  unfold key_of. rewrite !list_elem_of_cprod, !elem_of_seqZ. simpl.
  split_and!; try done; lia.
Qed.

(** ** The measure goes down *)

Lemma excess_insert_None (m : gmap Key Z) k t :
  m !! k = None →
  map_fold (λ _ t acc, (acc + Z.to_nat (t - startAlt))%nat) 0%nat (<[k:=t]> m) =
  (map_fold (λ _ t acc, (acc + Z.to_nat (t - startAlt))%nat) 0%nat m
   + Z.to_nat (t - startAlt))%nat.
Proof. intros Hk. rewrite map_fold_insert_L; [done| |done]. intros. lia. Qed.

Lemma excess_insert_Some (m : gmap Key Z) k t t0 :
  m !! k = Some t0 → startAlt ≤ t < t0 →
  (map_fold (λ _ t acc, (acc + Z.to_nat (t - startAlt))%nat) 0%nat (<[k:=t]> m) <
   map_fold (λ _ t acc, (acc + Z.to_nat (t - startAlt))%nat) 0%nat m)%nat.
Proof.
  intros Hk Hlt.
  rewrite (map_fold_delete_L _ _ k t0 m); [| intros; lia | done].
  rewrite <-insert_delete_eq.
  rewrite excess_insert_None by apply lookup_delete_eq. lia.
Qed.

Lemma slack_insert (D : gset Key) k :
  k ∈ universe → k ∉ D → (size (universe ∖ ({[k]} ∪ D)) < size (universe ∖ D))%nat.
Proof.
  intros HU HD. apply subset_size. split.
  - intros z [Hz Hn]%elem_of_difference. apply elem_of_difference.
    split; [done|]. intros ?. apply Hn, elem_of_union. by right.
  - intros Hsub. assert (k ∈ universe ∖ D) as Hk by by apply elem_of_difference.
    apply Hsub, elem_of_difference in Hk as [_ Hn].
    apply Hn, elem_of_union. left. by apply elem_of_singleton.
Qed.

Lemma progress_trans s1 s2 s3 : progress s1 s2 → progress s2 s3 → progress s1 s3.
Proof. unfold progress. lia. Qed.

Lemma relax_progress extra key s y :
  Inv extra s → Reach y →
  relax key s y = s ∨ progress (relax key s y) s.
Proof.
  intros HI Hy. destruct (relax_cases key s y) as [?|[-> Hlt]]; [by left|right].
  unfold progress, slack, excess. simpl.
  destruct (dist s !! key_of y) as [t0|] eqn:E.
  - right. split.
    + f_equal. rewrite dom_insert_L.
      assert (key_of y ∈ dom (dist s)) by (apply elem_of_dom; eauto).
      f_equal. apply subseteq_union_1_L. by apply singleton_subseteq_l.
    + eapply excess_insert_Some; [done|]. specialize (Hlt _ eq_refl).
      pose proof (Reach_time y Hy). lia.
  - left. rewrite dom_insert_L. apply slack_insert.
    + by apply Reach_universe.
    + by apply not_elem_of_dom.
Qed.

Lemma expand_progress extra cur ds :
  Reach cur → ¬ at_dest (key_of cur) → (∀ d, d ∈ ds → d ∈ dirs) →
  ∀ s, Inv extra s → recorded s cur →
  foldl (expand1 cur) s ds = s ∨ progress (foldl (expand1 cur) s ds) s.
Proof.
  intros Hcur Hnd. induction ds as [|d ds IH]; intros Hds s HI Hrec; simpl.
  { by left. }
  assert (d ∈ dirs) as Hd by (apply Hds; by left).
  destruct (expand1_Inv extra cur s d) as (HI1 & Himp1 & _); auto.
  assert (expand1 cur s d = s ∨ progress (expand1 cur s d) s) as Hstep.
  { unfold expand1. destruct (try_move cur d) as [y|] eqn:Hy; [|by left].
    eapply relax_progress; [done|]. by eapply Reach_move. }
  destruct (IH (λ d' Hd', Hds d' (list_elem_of_further _ _ _ Hd'))
               (expand1 cur s d) HI1) as [Heq|Hpr].
  { by apply Himp1. }
  - rewrite Heq. exact Hstep.
  - right. destruct Hstep as [Heq|?]; [by rewrite Heq in Hpr |- *|].
    by eapply progress_trans.
Qed.

Lemma body_smaller s cur q :
  Inv [] s → pq_pop (pq s) = Some (cur, q) → smaller (body cur q s) s.
Proof.
  intros HI Hpop. pose proof Hpop as [Hperm _]%pq_pop_Some.
  set (s0 := mkSearch (dist s) (parent s) q (bestTime s) (bestState s)).
  assert (smaller s0 s) as Hs0.
  { right. unfold slack, excess. simpl. rewrite Hperm. simpl. lia. }
  assert (Inv [cur] s0) as HI0.
  { eapply Inv_pending; [..|exact HI]; try done.
    intros x. simpl. by rewrite Hperm. }
  assert (recorded s0 cur) as Hrec.
  { apply (inv_pq _ _ _ _ _ _ _ _ HI0). simpl. by left. }
  unfold body. fold s0.
  destruct (stale s0 cur) eqn:Hst; [done|].
  case_decide as Hdest.
  { case_decide; [|done]. right. unfold slack, excess. simpl.
    rewrite Hperm. simpl. lia. }
  assert (Reach cur) as Hcur.
  { destruct Hrec as (t & Ht & Hle).
    destruct (decide (t < time cur)) as [Hlt|].
    { assert (stale s0 cur = true) as Hs by (apply stale_true; eauto).
      congruence. }
    assert (t = time cur) as -> by lia.
    rewrite <-(entry_key_of cur). by apply (inv_sound _ _ _ _ _ _ _ _ HI0). }
  destruct (expand_progress [cur] cur dirs Hcur Hdest (λ _ H, H) s0 HI0 Hrec)
    as [-> | Hpr]; [done|].
  left. unfold progress, slack, excess in *. simpl in *. lia.
Qed.

(** ** The loop terminates *)

Lemma loop_mono fuel fuel' s s' :
  loop fuel s = Some s' → (fuel ≤ fuel')%nat → loop fuel' s = Some s'.
Proof.
  revert fuel' s. induction fuel as [|fuel IH]; intros fuel' s; simpl.
  - destruct (pq_pop (pq s)) as [[cur q]|] eqn:Hpop; [done|].
    intros [= <-] _. destruct fuel'; simpl; by rewrite Hpop.
  - destruct (pq_pop (pq s)) as [[cur q]|] eqn:Hpop.
    + intros Hl Hle. destruct fuel' as [|fuel']; [lia|]. simpl. rewrite Hpop.
      apply IH; [done|lia].
    + intros [= <-] _. destruct fuel'; simpl; by rewrite Hpop.
Qed.

Lemma loop_empty fuel s s' : loop fuel s = Some s' → pq_pop (pq s') = None.
Proof.
  revert s. induction fuel as [|fuel IH]; intros s; simpl;
    destruct (pq_pop (pq s)) as [[cur q]|] eqn:Hpop; try done.
  - by intros [= <-].
  - apply IH.
  - by intros [= <-].
Qed.

Lemma loop_iterate fuel s s' : loop fuel s = Some s' → s' = iterate fuel s.
Proof.
  revert s. induction fuel as [|fuel IH]; intros s; simpl;
    destruct (pq_pop (pq s)) as [[cur q]|] eqn:Hpop; try done.
  - by intros [= <-].
  - apply IH.
  - by intros [= <-].
Qed.

Lemma loop_Inv fuel s s' : Inv [] s → loop fuel s = Some s' → Inv [] s'.
Proof. intros HI ->%loop_iterate. by apply iterate_Inv. Qed.

Lemma loop_terminates_measure a b c s :
  Inv [] s → slack s = a → excess s = b → length (pq_items (pq s)) = c →
  ∃ fuel s', loop fuel s = Some s'.
Proof.
  revert b c s.
  induction a as [a IHa] using lt_wf_ind. intros b.
  induction b as [b IHb] using lt_wf_ind. intros c.
  induction c as [c IHc] using lt_wf_ind. intros s HI Ha Hb Hc.
  destruct (pq_pop (pq s)) as [[cur q]|] eqn:Hpop.
  - pose proof (body_Inv s cur q HI Hpop) as HI'.
    assert (∃ fuel s', loop fuel (body cur q s) = Some s') as (fuel & s' & Hl).
    { destruct (body_smaller s cur q HI Hpop) as [[?|[? ?]]|(?&?&?)].
      - eapply (IHa (slack (body cur q s))); [lia|done..].
      - eapply (IHb (excess (body cur q s))); [lia|done|congruence|done..].
      - eapply (IHc (length (pq_items (pq (body cur q s)))));
          [lia|done|congruence|congruence|done]. }
    exists (S fuel), s'. simpl. by rewrite Hpop.
  - exists O, s. simpl. by rewrite Hpop.
Qed.

Lemma loop_terminates s : Inv [] s → ∃ fuel s', loop fuel s = Some s'.
Proof. intros HI. by eapply loop_terminates_measure. Qed.

(** The search ends, with an empty queue and the invariant. *)
Lemma search_ends :
  ∃ fuel s, loop fuel init = Some s ∧ Inv [] s ∧ pq_items (pq s) = [].
Proof.
  destruct (loop_terminates init init_Inv) as (fuel & s & Hl).
  exists fuel, s. split; [done|]. split.
  - by eapply loop_Inv; [apply init_Inv|].
  - by eapply pq_pop_None, loop_empty.
Qed.

(** ** The state at the end of the search *)

Section Final.
Variable s : Search.
Hypothesis HI : Inv [] s.
Hypothesis Hempty : pq_items (pq s) = [].

Lemma final_closed k t : dist s !! k = Some t → closed s k t.
Proof.
  intros Hkt. destruct (inv_closed _ _ _ _ _ _ _ _ HI _ _ Hkt) as [Hin|?]; [|done].
  rewrite Hempty in Hin. by apply elem_of_nil in Hin.
Qed.

(** Every state that can be reached is in [dist], no later than it is
    reached. *)
Lemma final_complete x : Reach x → recorded s x.
Proof.
  induction 1 as [|x d y Hx IH Hnd Hd Hy].
  - apply (inv_start _ _ _ _ _ _ _ _ HI).
  - destruct IH as (t & Ht & Hle).
    destruct (final_closed _ _ Ht) as [_ Hcl].
    rewrite <-(entry_key_of x) in Hy.
    apply (try_move_entry _ t) in Hy.
    destruct (Hcl Hnd _ _ Hd Hy) as (t' & Ht' & Hle').
    rewrite key_of_entry in Ht'. simpl in Hle'.
    exists t'. split; [done|lia].
Qed.

Lemma final_best_le x : Reach x → at_dest (key_of x) → bestTime s ≤ time x.
Proof.
  intros Hx Hd. destruct (final_complete x Hx) as (t & Ht & Hle).
  destruct (final_closed _ _ Ht) as [Hcl _]. specialize (Hcl Hd). lia.
Qed.

Lemma final_best :
  bestTime s ≠ INF →
  bestTime s < INF ∧ at_dest (bestState s) ∧
  Reach (entry (bestTime s) (bestState s)) ∧
  dist s !! bestState s = Some (bestTime s).
Proof.
  intros Hne. destruct (inv_best _ _ _ _ _ _ _ _ HI) as [?|(? & Hd & HR & Hrec)]; [done|].
  split_and!; try done.
  destruct Hrec as (t & Ht & Hle). rewrite key_of_entry in Ht. simpl in Hle.
  destruct (final_closed _ _ Ht) as [Hcl _]. specialize (Hcl Hd).
  rewrite Ht. f_equal. lia.
Qed.

(** A key and its parent are one move apart, with the times of [dist]. *)
Lemma final_parent k p t :
  parent s !! k = Some p → dist s !! k = Some t →
  ∃ tp d, dist s !! p = Some tp ∧ d ∈ dirs ∧
          try_move (entry tp p) d = Some (entry t k).
Proof.
  intros Hp Hk.
  destruct (inv_parent _ _ _ _ _ _ _ _ HI _ _ Hp)
    as (tp & tk & d & y & Hdp & Hdk & Hnd & Hd & Hm & Hky & Hle).
  simplify_eq.
  destruct (final_closed _ _ Hdp) as [_ Hcl].
  destruct (Hcl Hnd _ _ Hd Hm) as (t' & Ht' & Hle'). simplify_eq.
  exists tp, d. split_and!; try done.
  rewrite Hm. f_equal. rewrite <-(entry_key_of y). f_equal. lia.
Qed.

End Final.

(** ** The reconstruction *)

Lemma rec_state_mk_rec k t : rec_state (mk_rec k t) = entry t k.
Proof. done. Qed.

Lemma rec_key_mk_rec k t : rec_key (mk_rec k t) = k.
Proof. by destruct k as [[[??]?]?]. Qed.

Lemma walk_Trail fuel s k l : walk fuel s k = Some l → Trail s k l.
Proof.
  revert k l. induction fuel as [|fuel IH]; intros k l; simpl; [done|].
  case_decide as Hk.
  - intros [= <-]. by constructor.
  - destruct (walk fuel s (default (0, 0, 0, 0) (parent s !! k))) as [l'|] eqn:Hw;
      simpl; [|done].
    intros [= <-]. constructor; [done|]. by apply IH.
Qed.

Lemma walk_mono fuel fuel' s k l :
  walk fuel s k = Some l → (fuel ≤ fuel')%nat → walk fuel' s k = Some l.
Proof.
  revert fuel' k l. induction fuel as [|fuel IH]; intros fuel' k l; simpl; [done|].
  intros Hw Hle. destruct fuel' as [|fuel']; [lia|]. simpl.
  case_decide as Hk; [done|].
  destruct (walk fuel s (default (0, 0, 0, 0) (parent s !! k))) as [l'|] eqn:Hw';
    simpl in Hw; [|done].
  rewrite (IH fuel' _ l'); [done|done|lia].
Qed.

Lemma back_linked_reverse l : back_linked l → linked (reverse l).
Proof.
  intros Hl i p q Hp Hq.
  assert (S i < length l)%nat as Hlen.
  { apply lookup_lt_Some in Hq. by rewrite length_reverse in Hq. }
  rewrite reverse_lookup in Hp by lia. rewrite reverse_lookup in Hq by lia.
  apply (Hl (length l - S (S i))%nat); [done|].
  by replace (S (length l - S (S i))) with (length l - S i)%nat by lia.
Qed.

Section Reconstruction.
Variable s : Search.
Hypothesis HI : Inv [] s.
Hypothesis Hempty : pq_items (pq s) = [].

Lemma walk_terminates fuel k t :
  dist s !! k = Some t → (Z.to_nat (t - startAlt) < fuel)%nat →
  ∃ l, walk fuel s k = Some l.
Proof.
  revert k t. induction fuel as [|fuel IH]; intros k t Hk Hlt; [lia|]. simpl.
  case_decide as Ho; [by eexists|].
  destruct (inv_has_parent _ _ _ _ _ _ _ _ HI _ _ Hk) as [->|[p Hp]].
  { destruct Ho. done. }
  destruct (final_parent s HI Hempty _ _ _ Hp Hk) as (tp & d & Hdp & Hd & Hm).
  apply try_move_time_lt in Hm. simpl in Hm.
  pose proof (Reach_time _ (inv_sound _ _ _ _ _ _ _ _ HI _ _ Hdp)) as Hge.
  simpl in Hge. rewrite Hp. simpl.
  destruct (IH p tp Hdp) as [l ->]; [lia|]. by eexists.
Qed.

Lemma Trail_ok k l :
  Trail s k l → ∀ t, dist s !! k = Some t →
  head l = Some (mk_rec k t) ∧
  (∃ p, last l = Some p ∧ rec_row p = 0 ∧ rec_col p = 0) ∧
  Forall (λ p, dist s !! rec_key p = Some (rec_time p)) l ∧
  back_linked l.
Proof.
  induction 1 as [k Ho|k l Ho HT IH]; intros t Hk; rewrite Hk; simpl.
  - split_and!; [done| |by repeat constructor; rewrite rec_key_mk_rec|].
    + eexists. split; [done|]. by destruct k as [[[??]?]?].
    + intros [|i] q p; simpl; [|done]. by intros _ ?.
  - destruct (inv_has_parent _ _ _ _ _ _ _ _ HI _ _ Hk) as [->|[p Hp]].
    { destruct Ho. done. }
    destruct (final_parent s HI Hempty _ _ _ Hp Hk) as (tp & d & Hdp & Hd & Hm).
    rewrite Hp in IH. simpl in IH.
    destruct (IH tp Hdp) as (Hhd & (o & Hlast & Hor & Hoc) & Hall & Hbl).
    split_and!; [done| | |].
    + exists o. split; [|done]. rewrite last_cons, Hlast. done.
    + constructor; [by rewrite rec_key_mk_rec|done].
    + intros [|i] q' p'; simpl.
      * intros [= <-] Hp'. destruct l as [|x l]; [done|].
        simpl in *. simplify_eq. exists d. split; [done|].
        by rewrite !rec_state_mk_rec.
      * apply Hbl.
Qed.

(** The report is produced once the fuel exceeds the reported time, and it
    is the walk back from [bestState]. *)
Lemma report_found :
  bestTime s ≠ INF →
  ∃ l, Trail s (bestState s) l ∧
       ∀ fuel, (Z.to_nat (bestTime s - startAlt) < fuel)%nat →
               report fuel s = Some (Found (bestTime s) (reverse l)).
Proof.
  intros Hne. destruct (final_best s HI Hempty Hne) as (_ & _ & _ & Hd).
  destruct (walk_terminates (S (Z.to_nat (bestTime s - startAlt))) _ _ Hd)
    as [l Hl]; [lia|].
  exists l. split; [by eapply walk_Trail|].
  intros fuel Hf. unfold report. case_decide; [done|].
  rewrite (walk_mono _ fuel _ _ _ Hl) by lia. done.
Qed.

End Reconstruction.

(** ** Routes and reachable states *)

Lemma Reach_Route x : Reach x → Route (entry (time x - startAlt) (key_of x)).
Proof.
  induction 1 as [|x d y Hx IH Hnd Hd Hy]; simpl.
  - replace (startAlt - startAlt) with 0 by lia. apply Route_start.
  - rewrite <-(entry_key_of x) in Hy.
    apply (try_move_entry _ (time x - startAlt)) in Hy.
    replace (time y - startAlt) with (time x - startAlt + (time y - time x)) by lia.
    by eapply Route_move.
Qed.

(** A route either is a run of the search, or passes the destination cell
    before its end. *)
Lemma Route_Reach y :
  Route y →
  Reach (entry (startAlt + time y) (key_of y)) ∨
  ∃ x, Reach x ∧ at_dest (key_of x) ∧ time x ≤ startAlt + time y.
Proof.
  induction 1 as [|x d y Hx IH Hd Hy]; simpl.
  - left. replace (startAlt + 0) with startAlt by lia. apply Reach_start.
  - pose proof (try_move_time_lt _ _ _ Hy) as Hlt.
    destruct IH as [HR|(x0 & HR & Hx0 & Hle)].
    + destruct (decide (at_dest (key_of x))) as [Hdest|Hnd].
      * right. eexists. split; [exact HR|]. rewrite key_of_entry. simpl.
        split; [done|lia].
      * left. rewrite <-(entry_key_of x) in Hy.
        apply (try_move_entry _ (startAlt + time x)) in Hy.
        replace (startAlt + time y)
          with (startAlt + time x + (time y - time x)) by lia.
        eapply Reach_move; [exact HR|by rewrite key_of_entry|done..].
    + right. exists x0. split_and!; [done..|lia].
Qed.

Lemma Route_dest_Reach y :
  Route y → at_dest (key_of y) →
  ∃ x, Reach x ∧ at_dest (key_of x) ∧ time x ≤ startAlt + time y.
Proof.
  intros Hy Hd. destruct (Route_Reach y Hy) as [HR|?]; [|done].
  eexists. split; [exact HR|]. rewrite key_of_entry. simpl. split; [done|lia].
Qed.

(** ** The run as a whole *)

Lemma report_mono fuel fuel' s o :
  report fuel s = Some o → (fuel ≤ fuel')%nat → report fuel' s = Some o.
Proof.
  unfold report. case_decide; [done|]. intros Hr Hle.
  destruct (walk fuel s (bestState s)) as [l|] eqn:Hw; [|done].
  by rewrite (walk_mono _ fuel' _ _ _ Hw).
Qed.

Lemma solve_mono fuel fuel' o :
  solve fuel = Some o → (fuel ≤ fuel')%nat → solve fuel' = Some o.
Proof.
  unfold solve. intros Hs Hle.
  destruct (loop fuel init) as [s|] eqn:Hl; [|done]. simpl in Hs.
  rewrite (loop_mono _ fuel' _ _ Hl Hle). simpl. by eapply report_mono.
Qed.

Lemma solve_ends :
  ∃ fuel0 s o,
    Inv [] s ∧ pq_items (pq s) = [] ∧ output_of s o ∧
    ∀ fuel, (fuel0 ≤ fuel)%nat → loop fuel init = Some s ∧ solve fuel = Some o.
Proof.
  destruct search_ends as (fuel1 & s & Hl & HI & He).
  destruct (decide (bestTime s = INF)) as [Hb|Hb].
  - exists fuel1, s, Unreachable. split_and!; [done..|by left|].
    intros fuel Hf. pose proof (loop_mono _ _ _ _ Hl Hf) as Hl'.
    split; [done|]. unfold solve. rewrite Hl'. simpl. unfold report.
    by case_decide.
  - destruct (report_found s HI He Hb) as (l & HT & Hr).
    exists (fuel1 + S (Z.to_nat (bestTime s - startAlt)))%nat, s,
      (Found (bestTime s) (reverse l)).
    split_and!; [done..|right; eauto|].
    intros fuel Hf. assert (fuel1 ≤ fuel)%nat as Hf1 by lia.
    pose proof (loop_mono _ _ _ _ Hl Hf1) as Hl'.
    split; [done|]. unfold solve. rewrite Hl'. simpl. apply Hr. lia.
Qed.

(** Any two runs with enough fuel give the same output. *)
Lemma solve_agree fuel fuel' o o' :
  solve fuel = Some o → solve fuel' = Some o' → o = o'.
Proof.
  intros H1 H2.
  pose proof (solve_mono _ (fuel `max` fuel')%nat _ H1 ltac:(lia)) as H1'.
  pose proof (solve_mono _ (fuel `max` fuel')%nat _ H2 ltac:(lia)) as H2'.
  congruence.
Qed.

(** ** What the output is *)

Lemma solve_total :
  ∃ fuel0 o, ∀ fuel, (fuel0 ≤ fuel)%nat → solve fuel = Some o.
Proof.
  destruct solve_ends as (fuel0 & s & o & _ & _ & _ & H).
  exists fuel0, o. intros fuel Hf. by apply H.
Qed.

Lemma solve_final fuel o :
  solve fuel = Some o →
  ∃ s, Inv [] s ∧ pq_items (pq s) = [] ∧ output_of s o.
Proof.
  intros Hs. destruct solve_ends as (fuel0 & s & o' & HI & He & Ho & H).
  destruct (H fuel0) as [_ Hs']; [done|].
  rewrite (solve_agree _ _ _ _ Hs Hs'). eauto.
Qed.

Lemma linked_unit_steps path : linked path → unit_steps path.
Proof.
  intros Hl i p q Hp Hq. destruct (Hl i p q Hp Hq) as (d & Hd & Hm).
  apply try_move_Some in Hm. simpl in Hm. apply elem_of_dirs in Hd.
  destruct Hm as (_ & _ & -> & -> & _).
  destruct Hd as [-> | [-> | [-> | ->]]]; simpl; lia.
Qed.

(** The time that is printed is the start altitude plus the least cost of a
    route, and the path is made of moves of the search. *)
Lemma output_found fuel t path :
  solve fuel = Some (Found t path) →
  t < INF ∧ min_route_cost (t - startAlt) ∧
  origin_to_dest path ∧ linked path ∧
  Forall (λ p, Reach (rec_state p)) path ∧
  (∃ q, last path = Some q ∧ rec_time q = t).
Proof.
  intros (s & HI & He & [[_ [=]]|(Hne & l & HT & [= -> ->])])%solve_final.
  destruct (final_best s HI He Hne) as (Hlt & Hd & HR & Hb).
  destruct (Trail_ok s HI He _ _ HT _ Hb) as (Hhd & (o & Hlast & Hor & Hoc) & Hall & Hbl).
  split_and!.
  - done.
  - split.
    + exists (entry (bestTime s - startAlt) (bestState s)).
      split_and!; [|by rewrite key_of_entry|done].
      apply Reach_Route in HR. by rewrite key_of_entry in HR.
    + intros y Hy Hyd. destruct (Route_dest_Reach y Hy Hyd) as (x & Hx & Hxd & Hle).
      pose proof (final_best_le s HI He x Hx Hxd). lia.
  - split.
    + exists o. by rewrite head_reverse.
    + exists (mk_rec (bestState s) (bestTime s)).
      rewrite last_reverse, rec_key_mk_rec. done.
  - by apply back_linked_reverse.
  - apply Forall_reverse. eapply Forall_impl; [exact Hall|]. simpl.
    intros [[[[pr pc] pb] pa] pt] Hp.
    by apply (inv_sound _ _ _ _ _ _ _ _ HI) in Hp.
  - exists (mk_rec (bestState s) (bestTime s)). by rewrite last_reverse.
Qed.

(** [-1] is printed only when no route ends at the destination cell before
    [INF]. *)
Lemma output_unreachable fuel y :
  solve fuel = Some Unreachable →
  Route y → at_dest (key_of y) → INF ≤ startAlt + time y.
Proof.
  intros (s & HI & He & [[Hb _]|(_ & l & _ & [=])])%solve_final Hy Hd.
  destruct (Route_dest_Reach y Hy Hd) as (x & Hx & Hxd & Hle).
  pose proof (final_best_le s HI He x Hx Hxd). lia.
Qed.

(** When a route reaches the destination cell before [INF], a path is
    printed. *)
Lemma solve_found y :
  Route y → at_dest (key_of y) → startAlt + time y < INF →
  ∃ fuel0 t path, ∀ fuel, (fuel0 ≤ fuel)%nat → solve fuel = Some (Found t path).
Proof.
  intros Hy Hd Hlt. destruct solve_total as (fuel0 & o & H).
  destruct o as [|t path].
  - pose proof (output_unreachable _ y (H fuel0 ltac:(done)) Hy Hd). lia.
  - by exists fuel0, t, path.
Qed.

Lemma solve_unreachable :
  (∀ y, Route y → ¬ at_dest (key_of y)) →
  ∃ fuel0, ∀ fuel, (fuel0 ≤ fuel)%nat → solve fuel = Some Unreachable.
Proof.
  intros Hno. destruct solve_total as (fuel0 & o & H).
  destruct o as [|t path]; [by exists fuel0|].
  destruct (output_found _ _ _ (H fuel0 ltac:(done)))
    as (_ & [(y & Hy & Hd & _) _] & _).
  by destruct (Hno y Hy).
Qed.

(** ** Stopping at the first destination pop *)

Lemma relax_best key s y :
  bestTime (relax key s y) = bestTime s ∧ bestState (relax key s y) = bestState s.
Proof. by destruct (relax_cases key s y) as [->|[-> _]]. Qed.

Lemma expand_best cur ds s :
  bestTime (foldl (expand1 cur) s ds) = bestTime s ∧
  bestState (foldl (expand1 cur) s ds) = bestState s.
Proof.
  revert s. induction ds as [|d ds IH]; intros s; simpl; [done|].
  destruct (IH (expand1 cur s d)) as [-> ->]. unfold expand1.
  destruct (try_move cur d); [apply relax_best|done].
Qed.

Lemma expand_items cur ds s x :
  x ∈ pq_items (pq (foldl (expand1 cur) s ds)) →
  x ∈ pq_items (pq s) ∨ ∃ d, d ∈ ds ∧ try_move cur d = Some x.
Proof.
  revert s. induction ds as [|d ds IH]; intros s; simpl; [by left|].
  intros [Hx|(d' & Hd' & Hm)]%IH.
  - unfold expand1 in Hx. destruct (try_move cur d) as [y|] eqn:Hy; [|by left].
    destruct (relax_items (key_of cur) s y) as [Hp|Hp]; rewrite Hp in Hx.
    + by left.
    + apply elem_of_cons in Hx as [-> | Hx]; [|by left].
      right. exists d. split; [by left|done].
  - right. exists d'. split; [by right|done].
Qed.

(** Once [bestTime] is below every pending entry, an iteration leaves it and
    [bestState] as they are. *)
Lemma body_keeps_best s cur q :
  pq_pop (pq s) = Some (cur, q) →
  (∀ x, x ∈ pq_items (pq s) → bestTime s ≤ time x) →
  bestTime (body cur q s) = bestTime s ∧
  bestState (body cur q s) = bestState s ∧
  (∀ x, x ∈ pq_items (pq (body cur q s)) → bestTime s ≤ time x).
Proof.
  intros [Hperm _]%pq_pop_Some Hle.
  assert (bestTime s ≤ time cur) as Hcur by (apply Hle; rewrite Hperm; by left).
  assert (∀ x, x ∈ pq_items q → bestTime s ≤ time x) as Hq.
  { intros x Hx. apply Hle. rewrite Hperm. by right. }
  unfold body. destruct (stale _ cur); [done|].
  case_decide; [case_decide; [simpl in *; lia|done]|].
  destruct (expand_best cur dirs
              (mkSearch (dist s) (parent s) q (bestTime s) (bestState s)))
    as [-> ->].
  split_and!; [done..|].
  intros x [Hx|(d & _ & Hm)]%expand_items; [by apply Hq|].
  apply try_move_time_lt in Hm. lia.
Qed.

Lemma loop_keeps_best fuel s s' :
  loop fuel s = Some s' →
  (∀ x, x ∈ pq_items (pq s) → bestTime s ≤ time x) →
  bestTime s' = bestTime s ∧ bestState s' = bestState s.
Proof.
  revert s. induction fuel as [|fuel IH]; intros s; simpl;
    destruct (pq_pop (pq s)) as [[cur q]|] eqn:Hpop; try done.
  - by intros [= <-].
  - intros Hl Hle.
    destruct (body_keeps_best s cur q Hpop Hle) as (Hbt & Hbs & Hle').
    destruct (IH _ Hl) as [-> ->]; [|done].
    intros x Hx. rewrite Hbt. by apply Hle'.
  - by intros [= <-].
Qed.

(** The loop that stops at the first destination pop ends with the values of
    [bestTime] and [bestState] the full loop ends with. *)
Lemma loop_early_agrees fuel s s' :
  loop fuel s = Some s' →
  ∃ s'', loop_early fuel s = Some s'' ∧
         bestTime s'' = bestTime s' ∧ bestState s'' = bestState s'.
Proof.
  revert s. induction fuel as [|fuel IH]; intros s; simpl;
    destruct (pq_pop (pq s)) as [[cur q]|] eqn:Hpop; try done.
  - intros [= <-]. by exists s.
  - intros Hl.
    destruct (negb _ && bool_decide _) eqn:Hstop; [|by apply IH].
    exists (body cur q s). split; [done|].
    apply andb_true_iff in Hstop as [Hns Hd].
    apply negb_true_iff in Hns. apply bool_decide_eq_true in Hd.
    pose proof Hpop as [Hperm Hmin]%pq_pop_Some.
    assert (bestTime (body cur q s) ≤ time cur ∧
            pq_items (pq (body cur q s)) = pq_items q) as [Hb Hq].
    { unfold body. rewrite Hns. case_decide; [|done].
      case_decide; simpl in *; split; try done; lia. }
    destruct (loop_keeps_best _ _ _ Hl) as [-> ->]; [|done].
    intros x Hx. rewrite Hq in Hx.
    assert (x ∈ pq_items (pq s)) as Hin by (rewrite Hperm; by right).
    rewrite Forall_forall in Hmin. specialize (Hmin x Hin). lia.
  - intros [= <-]. by exists s.
Qed.

Lemma search_early_agrees :
  ∃ fuel0, ∀ fuel, (fuel0 ≤ fuel)%nat →
    ∃ s s', loop fuel init = Some s ∧ loop_early fuel init = Some s' ∧
            reported_time s' = reported_time s ∧ bestState s' = bestState s.
Proof.
  destruct search_ends as (fuel0 & s & Hl & _ & _).
  exists fuel0. intros fuel Hf. pose proof (loop_mono _ _ _ _ Hl Hf) as Hl'.
  destruct (loop_early_agrees _ _ _ Hl') as (s' & He & Hbt & Hbs).
  exists s, s'. split_and!; try done. unfold reported_time. by rewrite Hbt.
Qed.

(** ** Batteries, altitudes and the start entry *)

Lemma iterate_pending_Reach n x :
  x ∈ pq_items (pq (iterate n init)) →
  ∃ t, t ≤ time x ∧ Reach (entry t (key_of x)).
Proof.
  intros Hx. pose proof (iterate_Inv n init init_Inv) as HI.
  destruct (inv_pq _ _ _ _ _ _ _ _ HI x) as (t & Ht & Hle); [done|].
  exists t. split; [done|]. by apply (inv_sound _ _ _ _ _ _ _ _ HI).
Qed.

Lemma iterate_start_entry n : dist (iterate n init) !! start_key = Some startAlt.
Proof.
  pose proof (iterate_Inv n init init_Inv) as HI.
  destruct (inv_start _ _ _ _ _ _ _ _ HI) as (t & Ht & Hle).
  rewrite key_of_entry in Ht. simpl in Hle.
  pose proof (Reach_time _ (inv_sound _ _ _ _ _ _ _ _ HI _ _ Ht)) as Hge.
  simpl in Hge. rewrite Ht. f_equal. lia.
Qed.

Lemma battery_floor_nonneg : 0 ≤ B → 0 ≤ K → battery_floor B K = 0.
Proof. unfold battery_floor. lia. Qed.

(** The state reached at the start altitude's time is the start state. *)
Lemma Reach_at_start_time x :
  Reach x → time x = startAlt → x = mkState startAlt 0 0 B startAlt.
Proof.
  destruct 1 as [|x d y Hx _ _ Hy]; [done|].
  apply Reach_time in Hx. apply try_move_time_lt in Hy. lia.
Qed.

Lemma linked_altitude path i p q :
  linked path → path !! i = Some p → path !! S i = Some q →
  rec_altitude p ≤ rec_altitude q ∧
  (rec_altitude q = rec_altitude p ∨
   rec_altitude q = height_at (rec_row q) (rec_col q) ∧
   rec_altitude p < rec_altitude q).
Proof.
  intros Hl Hp Hq. destruct (Hl i p q Hp Hq) as (d & _ & Hm).
  apply try_move_Some in Hm. simpl in Hm.
  destruct Hm as (_ & _ & Hr & Hc & _ & Ha & _).
  rewrite Hr, Hc, Ha. lia.
Qed.

(** ** Special grids *)

Lemma Route_no_battery y : B ≤ 0 → Route y → y = mkState 0 0 0 B startAlt.
Proof.
  intros HB. induction 1 as [|x d y _ -> _ Hy]; [done|].
  apply try_move_Some in Hy. simpl in Hy. lia.
Qed.

Lemma Reach_single_cell x :
  N = 1 → M = 1 → Reach x → x = mkState startAlt 0 0 B startAlt.
Proof.
  intros HN HM. induction 1 as [|x d y _ -> Hnd _ _]; [done|].
  destruct Hnd. unfold at_dest. simpl. unfold krow, kcol. simpl. lia.
Qed.

Lemma solve_single_cell :
  N = 1 → M = 1 → startAlt < INF →
  ∃ fuel0, ∀ fuel, (fuel0 ≤ fuel)%nat →
    solve fuel = Some (Found startAlt [(0, 0, B, startAlt, startAlt)]).
Proof.
  intros HN HM Hlt.
  destruct (solve_found (mkState 0 0 0 B startAlt)) as (fuel0 & t & path & H).
  { apply Route_start. }
  { unfold at_dest, krow, kcol. simpl. lia. }
  { simpl. lia. }
  exists fuel0. intros fuel Hf. rewrite (H fuel Hf). do 2 f_equal.
  - destruct (output_found _ _ _ (H fuel Hf))
      as (_ & _ & _ & _ & Hall & (q & Hq & <-)).
    apply last_Some_elem_of in Hq. rewrite Forall_forall in Hall.
    pose proof (Reach_single_cell _ HN HM (Hall q Hq)) as Heq.
    by apply (f_equal time) in Heq.
  - destruct (output_found _ _ _ (H fuel Hf))
      as (_ & _ & [(p & Hp & _) _] & Hl & Hall & _).
    rewrite Forall_forall in Hall.
    assert (∀ p, p ∈ path → p = (0, 0, B, startAlt, startAlt)) as Heq.
    { intros [[[[pr pc] pb] pa] pt] Hin.
      pose proof (Reach_single_cell _ HN HM (Hall _ Hin)) as [=].
      unfold rec_time, rec_row, rec_col, rec_battery, rec_altitude in *.
      simpl in *. by subst. }
    destruct path as [|p0 [|p1 path]]; [done| |].
    + f_equal. apply Heq. by left.
    + destruct (Hl O p0 p1) as (d & _ & Hm); [done..|].
      apply try_move_time_lt in Hm.
      rewrite (Heq p0), (Heq p1) in Hm; [|by right; left|by left].
      simpl in Hm. lia.
Qed.

End Properties.

(** * Runs on concrete inputs *)

(** The flat 2x2 grid with [B = 10]: two moves, batteries 10, 9, 8. *)
Example flat_grid_run :
  solve (PQ:=ListPQ) 2 2 10 0 [[0; 0]; [0; 0]] ∅ 60 =
  Some (Found 2 [(0, 0, 10, 0, 0); (1, 0, 9, 0, 1); (1, 1, 8, 0, 2)]).
Proof. by vm_compute. Qed.

(** A 3x3 grid with two stations, from the tokens of the input. *)
Example stations_run :
  main (PQ:=ListPQ) (mkIndet 0 0 0) 100
       [3; 3; 6; 4; 0; 3; 1; 2; 9; 2; 1; 1; 4; 2; 2; 1; 3; 2] =
  Exit (render (Found 8 [(0, 0, 6, 0, 0); (1, 0, 6, 2, 3); (2, 0, 5, 2, 4);
                         (2, 1, 6, 2, 5); (2, 2, 3, 4, 8)])).
Proof. by vm_compute. Qed.

(** * The claims *)

(** ** C1: the reported time and the path *)




(** ** C2: the grid of one cell *)

(** C2, as the program has it.  On a 1x1 grid whose height [h] is below
    [INF], the program prints time [h] and the path of one record, the start
    state with arrival time [h]: the start entry is pushed with
    [time = startAlt], not 0. *)
Theorem C2_single_cell_reports_start_altitude
    `{PQ : PriorityQueue} (h B K : Z) (recharge : gset (Z * Z)) :
  h < INF →
  ∃ fuel0, ∀ fuel, (fuel0 ≤ fuel)%nat →
    solve 1 1 B K [[h]] recharge fuel = Some (Found h [(0, 0, B, h, h)]).
Proof.
  intros Hh. by apply (solve_single_cell 1 1 B K [[h]] recharge).
Qed.

Lemma C2_witness :
  5 < INF ∧
  ∃ fuel0, ∀ fuel, (fuel0 ≤ fuel)%nat →
    solve (PQ:=ListPQ) 1 1 10 0 [[5]] {[ (0, 0) ]} fuel =
    Some (Found 5 [(0, 0, 10, 5, 5)]).
Proof.
  assert (5 < INF) as Hh by (by vm_compute).
  split; [done|].
  exact (C2_single_cell_reports_start_altitude
           (PQ:=ListPQ) 5 10 0 {[ (0, 0) ]} Hh).
Defined.

(** C2 as it is stated fails on the 1x1 grid of height 5: the program prints
    time 5 and arrival time 5, not 0.  On the 1x1 grid of height [INF] it
    prints [-1]. *)
Lemma C2_counterexample :
  solve (PQ:=ListPQ) 1 1 10 0 [[5]] ∅ 3 = Some (Found 5 [(0, 0, 10, 5, 5)]) ∧
  Found 5 [(0, 0, 10, 5, 5)] ≠ Found 0 [(0, 0, 10, 5, 0)] ∧
  solve (PQ:=ListPQ) 1 1 10 0 [[INF]] ∅ 3 = Some Unreachable.
Proof. split_and!; [by vm_compute|done|by vm_compute]. Qed.

(** ** C3: the cost of a move *)

(** The two states of the 1x2 grid of heights 0 5 with [B = 10]. *)
Lemma climb_scenario_Reach x :
  Reach 1 2 10 0 [[0; 5]] ∅ x →
  x = mkState 0 0 0 10 0 ∨ x = mkState 6 0 1 4 5.
Proof.
  induction 1 as [|x d y _ IH Hnd Hd Hy]; [by left|].
  destruct IH as [-> | ->].
  - apply elem_of_dirs in Hd as [-> | [-> | [-> | ->]]];
      vm_compute in Hy; simplify_eq. by right.
  - destruct Hnd. by split.
Qed.

Lemma climb_scenario `{PQ : PriorityQueue} :
  ∃ fuel0, ∀ fuel, (fuel0 ≤ fuel)%nat →
    solve 1 2 10 0 [[0; 5]] ∅ fuel =
    Some (Found 6 [(0, 0, 10, 0, 0); (0, 1, 4, 5, 6)]).
Proof.
  destruct (solve_found 1 2 10 0 [[0; 5]] ∅ (mkState 6 0 1 4 5))
    as (fuel0 & t & path & H).
  { apply (Route_move 1 2 10 0 [[0; 5]] ∅ (mkState 0 0 0 10 0) (0, 1));
      [apply Route_start|by left|reflexivity]. }
  { by split. }
  { by vm_compute. }
  exists fuel0. intros fuel Hf. rewrite (H fuel Hf).
  destruct (output_found _ _ _ _ _ _ _ _ _ (H fuel Hf))
    as (_ & _ & [(p & Hp & Hpr & Hpc) (q & Hq & Hqd)] & Hl & Hall & (q' & Hq' & <-)).
  rewrite Hq in Hq'. simplify_eq.
  rewrite Forall_forall in Hall.
  assert (∀ z, z ∈ path →
               z = (0, 0, 10, 0, 0) ∨ z = (0, 1, 4, 5, 6)) as Hcases.
  { intros [[[[zr zc] zb] za] zt] Hz.
    destruct (climb_scenario_Reach _ (Hall _ Hz)) as [[=]|[=]];
      unfold rec_time, rec_row, rec_col, rec_battery, rec_altitude in *;
      simpl in *; subst; auto. }
  assert (q' = (0, 1, 4, 5, 6)) as ->.
  { destruct (Hcases q') as [-> | ->]; [by eapply last_Some_elem_of| |done].
    destruct Hqd as [_ Hc]. by vm_compute in Hc. }
  destruct path as [|p0 path]; [done|]. simpl in Hp. simplify_eq.
  assert (p = (0, 0, 10, 0, 0)) as ->.
  { destruct (Hcases p) as [-> | ->]; [by left|done|]. by vm_compute in Hpc. }
  destruct path as [|p1 path]; [by vm_compute in Hq|].
  assert (p1 = (0, 1, 4, 5, 6)) as ->.
  { destruct (Hcases p1) as [-> | ->]; [by right; left| |done].
    destruct (Hl O _ _ eq_refl eq_refl) as (d & _ & Hm).
    apply try_move_time_lt in Hm. simpl in Hm. lia. }
  destruct path as [|p2 path]; [done|].
  destruct (Hl 1%nat _ _ eq_refl eq_refl) as (d & _ & Hm).
  apply try_move_time_lt in Hm.
  destruct (Hcases p2) as [-> | ->]; [by right; right; left| |];
    vm_compute in Hm; done.
Qed.



(** ** C4: the unreachable destination *)

Lemma no_battery_unreachable (N M B K : Z) (height : list (list Z))
    (recharge : gset (Z * Z)) (y : State) :
  N = 2 → M = 1 → B = 0 →
  Route N M B K height recharge y → ¬ at_dest N M (key_of y).
Proof.
  intros -> -> -> Hy. apply Route_no_battery in Hy as ->; [|done].
  intros [Hr _]. by vm_compute in Hr.
Qed.



(** ** C5: recharging *)



(** ** C6: altitudes along the path *)

(** Along every printed path the altitude never goes down, and it goes up
    only by becoming the height of the cell that is entered. *)
Lemma output_altitude_monotone
    `{PQ : PriorityQueue} (N M B K : Z) (height : list (list Z))
    (recharge : gset (Z * Z)) (fuel : nat) (t : Z) (path : list PathRec)
    (i : nat) (p q : PathRec) :
  solve N M B K height recharge fuel = Some (Found t path) →
  path !! i = Some p → path !! S i = Some q →
  rec_altitude p ≤ rec_altitude q ∧
  (rec_altitude q = rec_altitude p ∨
   rec_altitude q = height_at height (rec_row q) (rec_col q) ∧
   rec_altitude p < rec_altitude q).
Proof.
  intros Hs Hp Hq.
  destruct (output_found _ _ _ _ _ _ _ _ _ Hs) as (_ & _ & _ & Hl & _).
  by eapply linked_altitude.
Qed.

(** C6 at the input [1 3 10 6 / 0 6 12 / 1 / 1 1]: the best route comes back
    to the station on the cell (0,0) at altitude 6, the walk back from the
    destination stops at that entry, and the first record of the printed
    path has altitude 6 and time 8, while [height[0][0]] is 0. *)
Theorem C6_first_record_after_revisit :
  main (PQ:=ListPQ) (mkIndet 0 0 0) 10 [1; 3; 10; 6; 0; 6; 12; 1; 1; 1] =
    Exit (render (Found 16 [(0, 0, 8, 6, 8); (0, 1, 7, 6, 9); (0, 2, 0, 12, 16)])) ∧
  solve (PQ:=ListPQ) 1 3 10 6 [[0; 6; 12]] {[ (0, 0) ]} 10 =
    Some (Found 16 [(0, 0, 8, 6, 8); (0, 1, 7, 6, 9); (0, 2, 0, 12, 16)]) ∧
  startAlt [[0; 6; 12]] = 0 ∧
  rec_altitude (0, 0, 8, 6, 8) ≠ startAlt [[0; 6; 12]].
Proof. split_and!; [by vm_compute|by vm_compute|done|done]. Qed.

(** ** C7: the battery stays within its range *)



(** ** C8: stopping at the first destination pop *)


(** ** C9: short input *)

Lemma render_not_empty (o : Output) : render o ≠ EmptyString.
Proof. by destruct o. Qed.




(** ** C10: the start state is not recharged *)



(** * Further properties of the search *)

Section Further.
Context `{PQ : PriorityQueue}.
Variables (N M : Z) (B K : Z).
Variable height : list (list Z).
Variable recharge : gset (Z * Z).

Local Abbreviation try_move := (try_move N M B K height recharge).
Local Abbreviation height_at := (height_at height).
Local Abbreviation startAlt := (startAlt height).
Local Abbreviation start_key := (start_key B height).
Local Abbreviation at_dest := (at_dest N M).
Local Abbreviation Reach := (Reach N M B K height recharge).
Local Abbreviation Route := (Route N M B K height recharge).
Local Abbreviation loop := (loop N M B K height recharge).
Local Abbreviation iterate := (iterate N M B K height recharge).
Local Abbreviation init := (init B height).
Local Abbreviation solve := (solve N M B K height recharge).
Local Abbreviation Inv := (Inv N M B K height recharge).

(** A reachable state flies no lower than the building of its cell, and no
    lower than the start altitude. *)
Lemma Reach_clears x :
  Reach x → height_at (r x) (c x) ≤ altitude x ∧ startAlt ≤ altitude x.
Proof.
  induction 1 as [|x d y _ IH _ _ Hy]; simpl; [done|].
  apply try_move_Some in Hy. simpl in Hy.
  destruct Hy as (_ & _ & -> & -> & _ & -> & _). lia.
Qed.

(** The time of a reachable state pays for its altitude and for one unit per
    cell of distance from the origin. *)
Lemma Reach_time_moves x : Reach x → altitude x + r x + c x ≤ time x.
Proof.
  induction 1 as [|x d y _ IH _ Hd Hy]; simpl; [lia|].
  apply try_move_Some in Hy. simpl in Hy. apply elem_of_dirs in Hd.
  destruct Hy as (_ & _ & -> & -> & -> & -> & _).
  destruct Hd as [-> | [-> | [-> | ->]]]; simpl; lia.
Qed.

(** At the end of the search no key has the start key's place: the start
    key has no parent. *)
Lemma Inv_start_no_parent extra s : Inv extra s → parent s !! start_key = None.
Proof.
  intros HI. destruct (parent s !! start_key) as [p|] eqn:Hp; [|done].
  destruct (inv_parent _ _ _ _ _ _ _ _ HI _ _ Hp)
    as (tp & tk & d & y & Hdp & Hdk & _ & _ & Hm & _ & Hle).
  pose proof (Reach_time _ _ _ _ _ _ _ (inv_sound _ _ _ _ _ _ _ _ HI _ _ Hdp)) as Hge.
  destruct (inv_start _ _ _ _ _ _ _ _ HI) as (t0 & Ht0 & Hle0).
  rewrite key_of_entry in Ht0. simpl in *. simplify_eq.
  apply try_move_time_lt in Hm. simpl in Hm. lia.
Qed.

(** [dist] after one more iteration: no key is lost and no time goes up. *)
Lemma body_dist_improves s cur q k t :
  dist s !! k = Some t →
  ∃ t', dist (body N M B K height recharge cur q s) !! k = Some t' ∧ t' ≤ t.
Proof.
  intros Hk. unfold body.
  set (s0 := mkSearch (dist s) (parent s) q (bestTime s) (bestState s)).
  assert (∃ t', dist s0 !! k = Some t' ∧ t' ≤ t) as H0 by (exists t; done).
  destruct (stale s0 cur); [done|].
  case_decide; [by case_decide|].
  revert H0. generalize s0. clear.
  induction dirs as [|d ds IH]; intros s0 H0; simpl; [done|].
  apply IH. unfold expand1.
  destruct (try_move cur d) as [y|]; [|done].
  destruct H0 as (t' & Ht' & Hle).
  destruct (relax_improves (key_of cur) s0 y) as [[Himp _] _].
  destruct (Himp (entry t' k)) as (t'' & Ht'' & Hle'').
  { exists t'. by rewrite key_of_entry. }
  rewrite key_of_entry in Ht''. simpl in Hle''. exists t''. split; [done|lia].
Qed.

(** The walk back from a key meets the cell (0,0) in its last record only. *)
Lemma Trail_origin_last s k l i p :
  Trail s k l → l !! i = Some p → rec_row p = 0 → rec_col p = 0 →
  S i = length l.
Proof.
  intros HT. revert i. induction HT as [k Ho|k l Ho HT IH]; intros i Hi Hr Hc.
  - destruct i as [|i]; [done|]. by destruct i.
  - destruct i as [|i]; simpl in *.
    + simplify_eq. destruct Ho. by destruct k as [[[??]?]?].
    + f_equal. by apply IH.
Qed.

End Further.








(** X6.  Every entry that is in the queue at any point of the search, and
    every record of a printed path, has an altitude at least the height of
    the building of its cell and at least [height[0][0]]. *)
Theorem altitude_clears_buildings
    `{PQ : PriorityQueue} (N M B K : Z) (height : list (list Z))
    (recharge : gset (Z * Z)) :
  (∀ n x,
     x ∈ pq_items (pq (iterate N M B K height recharge n (init B height))) →
     height_at height (r x) (c x) ≤ altitude x ∧ startAlt height ≤ altitude x) ∧
  (∀ fuel t path,
     solve N M B K height recharge fuel = Some (Found t path) →
     Forall (λ p, height_at height (rec_row p) (rec_col p) ≤ rec_altitude p ∧
                  startAlt height ≤ rec_altitude p) path).
Proof.
  split.
  - intros n x Hx.
    destruct (iterate_pending_Reach _ _ _ _ _ _ _ _ Hx) as (t & _ & HR).
    apply Reach_clears in HR. by destruct x.
  - intros fuel t path Hs.
    destruct (output_found _ _ _ _ _ _ _ _ _ Hs) as (_ & _ & _ & _ & Hall & _).
    eapply Forall_impl; [exact Hall|]. simpl. intros p HR.
    by apply Reach_clears in HR.
Qed.



(** X8.  From one iteration of the loop to the next, no key leaves [dist]
    and no time in it goes up. *)
Theorem dist_only_improves
    `{PQ : PriorityQueue} (N M B K : Z) (height : list (list Z))
    (recharge : gset (Z * Z)) (n : nat) (k : Key) (t : Z) :
  dist (iterate N M B K height recharge n (init B height)) !! k = Some t →
  ∃ t', dist (iterate N M B K height recharge (S n) (init B height)) !! k
          = Some t' ∧ t' ≤ t.
Proof.
  generalize (init B height). induction n as [|n IH]; intros s; simpl.
  - intros Hk. destruct (pq_pop (pq s)) as [[cur q]|]; [|by exists t].
    by apply body_dist_improves.
  - destruct (pq_pop (pq s)) as [[cur q]|] eqn:Hpop.
    + intros Hk. specialize (IH _ Hk). simpl in IH. exact IH.
    + intros Hk. by exists t.
Qed.

Lemma dist_only_improves_witness :
  dist (iterate (PQ:=ListPQ) 1 2 10 0 [[0; 5]] ∅ 1 (init 10 [[0; 5]]))
    !! (0, 1, 4, 5) = Some 6 ∧
  ∃ t', dist (iterate (PQ:=ListPQ) 1 2 10 0 [[0; 5]] ∅ 2 (init 10 [[0; 5]]))
          !! (0, 1, 4, 5) = Some t' ∧ t' ≤ 6.
Proof.
  assert (dist (iterate (PQ:=ListPQ) 1 2 10 0 [[0; 5]] ∅ 1 (init 10 [[0; 5]]))
            !! (0, 1, 4, 5) = Some 6) as Hk by (by vm_compute).
  split; [exact Hk|].
  exact (dist_only_improves (PQ:=ListPQ) 1 2 10 0 [[0; 5]] ∅ 1 _ _ Hk).
Defined.

(** * Further properties: stations and batteries *)

Section Stations.
Context `{PQ : PriorityQueue}.
Variables (N M : Z) (B K : Z).
Variable height : list (list Z).
Variables rc rc' : gset (Z * Z).
Hypothesis Hagree :
  ∀ i j, 0 ≤ i < N → 0 ≤ j < M → ((i, j) ∈ rc ↔ (i, j) ∈ rc').

Lemma try_move_agree cur d :
  try_move N M B K height rc cur d = try_move N M B K height rc' cur d.
Proof.
  unfold try_move. case_decide as Hb; [done|].
  destruct (decide (height_at height (r cur + d.1) (c cur + d.2) > altitude cur));
    (case_decide; [done|]);
    destruct (decide ((r cur + d.1, c cur + d.2) ∈ rc)) as [Hin|Hin];
    destruct (decide ((r cur + d.1, c cur + d.2) ∈ rc')) as [Hin'|Hin'];
    try done; exfalso; apply Hagree in Hin || apply Hagree in Hin';
    try done; lia.
Qed.

Lemma body_agree cur q s :
  body N M B K height rc cur q s = body N M B K height rc' cur q s.
Proof.
  unfold body. destruct (stale _ cur); [done|]. case_decide; [done|].
  generalize (mkSearch (dist s) (parent s) q (bestTime s) (bestState s)).
  induction dirs as [|d ds IH]; intros s0; simpl; [done|].
  unfold expand1 at 2 4. rewrite try_move_agree. apply IH.
Qed.

Lemma loop_agree fuel s :
  loop N M B K height rc fuel s = loop N M B K height rc' fuel s.
Proof.
  revert s. induction fuel as [|fuel IH]; intros s; simpl; [done|].
  destruct (pq_pop (pq s)) as [[cur q]|]; [|done].
  rewrite body_agree. apply IH.
Qed.

Lemma solve_agree_stations fuel :
  solve N M B K height rc fuel = solve N M B K height rc' fuel.
Proof. unfold solve. by rewrite loop_agree. Qed.

End Stations.

Section Budget.
Context `{PQ : PriorityQueue}.
Variables (N M : Z) (B K : Z).
Variable height : list (list Z).
Variable recharge : gset (Z * Z).
Hypothesis Hno : K = 0 ∨ recharge = ∅.

(** Without a recharge that adds battery, the battery of a reachable state
    is what is left of [B] after the time spent since the start. *)
Lemma Reach_battery_spent x :
  Reach N M B K height recharge x →
  battery x = B - (time x - startAlt height).
Proof.
  induction 1 as [|x d y Hx IH _ _ Hy]; simpl; [lia|].
  apply Reach_time in Hx. apply try_move_Some in Hy. simpl in Hy.
  destruct Hy as (_ & _ & _ & _ & -> & _ & Hnb & ->).
  case_decide as Hin; [|lia].
  destruct Hno as [-> | ->]; [lia|]. by apply not_elem_of_empty in Hin.
Qed.

Lemma Reach_battery_nonneg x :
  0 ≤ B → Reach N M B K height recharge x → 0 ≤ battery x.
Proof.
  intros HB. destruct 1 as [|x d y Hx _ _ Hy]; simpl; [done|].
  pose proof (Reach_battery_spent x Hx) as Hb. apply Reach_time in Hx.
  apply try_move_Some in Hy. simpl in Hy.
  destruct Hy as (_ & _ & _ & _ & _ & _ & Hnb & ->).
  case_decide as Hin; [|lia].
  destruct Hno as [-> | ->]; [lia|]. by apply not_elem_of_empty in Hin.
Qed.

End Budget.

(** X9.  Stations outside the grid are never looked at: two recharge sets
    with the same cells inside the grid give the same run. *)
Theorem stations_outside_grid_ignored
    `{PQ : PriorityQueue} (N M B K : Z) (height : list (list Z))
    (rc rc' : gset (Z * Z)) :
  (∀ i j, 0 ≤ i < N → 0 ≤ j < M → ((i, j) ∈ rc ↔ (i, j) ∈ rc')) →
  ∀ fuel, solve N M B K height rc fuel = solve N M B K height rc' fuel.
Proof. intros Hagree fuel. by apply solve_agree_stations. Qed.

Lemma stations_outside_grid_ignored_witness :
  (∀ i j, 0 ≤ i < 1 → 0 ≤ j < 2 →
          ((i, j) ∈ ({[ (0, 1) ]} : gset (Z * Z)) ↔
           (i, j) ∈ ({[ (0, 1); (5, 5) ]} : gset (Z * Z)))) ∧
  ∀ fuel, solve (PQ:=ListPQ) 1 2 10 3 [[0; 5]] {[ (0, 1) ]} fuel =
          solve (PQ:=ListPQ) 1 2 10 3 [[0; 5]] {[ (0, 1); (5, 5) ]} fuel.
Proof.
  assert (∀ i j, 0 ≤ i < 1 → 0 ≤ j < 2 →
                 ((i, j) ∈ ({[ (0, 1) ]} : gset (Z * Z)) ↔
                  (i, j) ∈ ({[ (0, 1); (5, 5) ]} : gset (Z * Z)))) as Hagree.
  { intros i j Hi Hj. rewrite elem_of_union, !elem_of_singleton.
    split; [by left|]. intros [?|[= ? ?]]; [done|lia]. }
  split; [exact Hagree|].
  exact (stations_outside_grid_ignored
           (PQ:=ListPQ) 1 2 10 3 [[0; 5]] _ _ Hagree).
Defined.







(** * Further properties: reading the input *)

Lemma read_row_app (row rest : list Z) :
  read_row (length row) (mkIn (row ++ rest) true) = (row, mkIn rest true).
Proof.
  induction row as [|v row IH]; simpl; [done|]. by rewrite IH.
Qed.

Lemma read_height_app (m : nat) (height : list (list Z)) (rest : list Z) :
  Forall (λ row, length row = m) height →
  read_height (length height) m (mkIn (mjoin height ++ rest) true) =
  (height, mkIn rest true).
Proof.
  induction 1 as [|row height Hrow _ IH]; simpl; [done|].
  rewrite <-Hrow, <-(assoc_L (++)), read_row_app. by rewrite Hrow, IH.
Qed.

Lemma read_recharge_app (u : Indeterminate) (stations : list (Z * Z))
    (rest : list Z) (acc : gset (Z * Z)) :
  read_recharge u (length stations)
                (mkIn (encode_stations stations ++ rest) true) acc =
  (station_set stations ∪ acc, mkIn rest true).
Proof.
  revert acc. induction stations as [|[sr sc] stations IH]; intros acc; simpl.
  - f_equal. unfold station_set. simpl. by rewrite (left_id_L ∅ (∪)).
  - unfold extract. simpl. unfold encode_stations in IH. rewrite IH.
    f_equal. unfold station_set. rewrite fmap_cons, list_to_set_cons.
    cbn [fst snd]. rewrite (assoc_L (∪)). f_equal. apply (comm_L (∪)).
Qed.

Lemma read_row_length (m : nat) (i : istream) :
  length (read_row m i).1 = m.
Proof.
  revert i. induction m as [|m IH]; intros i; simpl; [done|].
  destruct (extract 0 i) as [v i1]. specialize (IH i1).
  destruct (read_row m i1) as [row i2]. simpl in *. by rewrite IH.
Qed.

Lemma read_row_exhausted (m : nat) (i : istream) :
  tokens i = [] ∨ good i = false →
  (read_row m i).1 = replicate m 0 ∧
  (tokens (read_row m i).2 = [] ∨ good (read_row m i).2 = false).
Proof.
  revert i. induction m as [|m IH]; intros i Hi; simpl; [done|].
  assert (∃ i1, extract 0 i = (0, i1) ∧ (tokens i1 = [] ∨ good i1 = false))
    as (i1 & -> & Hi1).
  { unfold extract. destruct (good i) eqn:Hg.
    - destruct Hi as [-> | ?]; [|done]. eexists. split; [done|]. by left.
    - eexists. split; [done|]. by right. }
  destruct (IH i1 Hi1) as [Hrow Hrest].
  destruct (read_row m i1) as [row i2]. simpl in *. by rewrite Hrow.
Qed.



(** X14.  Whatever the input holds, the grid that is read has [n] rows of
    [m] heights, so that every cell inside the grid has a height of its
    own; once the input is exhausted or has failed, the heights that are
    left are 0. *)
Theorem grid_read_has_its_dimensions (n m : nat) (i : istream) :
  length (read_height n m i).1 = n ∧
  Forall (λ row, length row = m) (read_height n m i).1 ∧
  (∀ a b, (a < n)%nat → (b < m)%nat →
          is_Some ((read_height n m i).1 !! a ≫= λ row, row !! b)) ∧
  (tokens i = [] ∨ good i = false →
   (read_height n m i).1 = replicate n (replicate m 0)).
Proof.
  assert (length (read_height n m i).1 = n ∧
          Forall (λ row, length row = m) (read_height n m i).1) as [Hl Hr].
  { revert i. induction n as [|n IH]; intros i; simpl; [by split|].
    pose proof (read_row_length m i) as Hrow.
    destruct (read_row m i) as [row i1]. specialize (IH i1).
    destruct (read_height n m i1) as [rows i2]. simpl in *.
    destruct IH as [-> ?]. split; [done|by constructor]. }
  split_and!; try done.
  - intros a b Ha Hb.
    destruct (lookup_lt_is_Some_2 (read_height n m i).1 a) as [row Hrow];
      [lia|].
    rewrite Hrow. simpl. apply lookup_lt_is_Some_2.
    rewrite Forall_forall in Hr.
    rewrite (Hr row); [done|]. apply list_elem_of_lookup. eauto.
  - clear Hl Hr. revert i. induction n as [|n IH]; intros i Hi; simpl; [done|].
    destruct (read_row_exhausted m i Hi) as [Hrow Hi1].
    destruct (read_row m i) as [row i1]. specialize (IH i1 Hi1).
    destruct (read_height n m i1) as [rows i2]. simpl in *. by subst.
Qed.

(** * Further properties: the sentinel, and the size of the run *)



Lemma increasing_times_from_head (path : list PathRec) :
  (∀ i p q, path !! i = Some p → path !! S i = Some q →
            rec_time p < rec_time q) →
  ∀ i p p0, path !! i = Some p → head path = Some p0 →
            rec_time p0 + Z.of_nat i ≤ rec_time p.
Proof.
  intros Hinc i. induction i as [|i IH]; intros p p0 Hp Hp0.
  - rewrite head_lookup in Hp0. simplify_eq. lia.
  - destruct (lookup_lt_is_Some_2 path i) as [p' Hp'].
    { apply lookup_lt_Some in Hp. lia. }
    specialize (IH _ _ Hp' Hp0). specialize (Hinc _ _ _ Hp' Hp). lia.
Qed.



Lemma size_list_to_set_le (l : list Key) :
  (size (list_to_set l : gset Key) ≤ length l)%nat.
Proof.
  induction l as [|x l IH].
  { rewrite list_to_set_nil, size_empty. done. }
  rewrite list_to_set_cons, size_union_alt, size_singleton. simpl.
  pose proof (subseteq_size (list_to_set l ∖ {[x]}) (list_to_set l : gset Key)
                ltac:(apply subseteq_difference_l; done)).
  lia.
Qed.


Lemma output_altitude_monotone_witness :
  solve (PQ:=ListPQ) 1 3 10 6 [[0; 6; 12]] {[ (0, 0) ]} 10 =
    Some (Found 16 [(0, 0, 8, 6, 8); (0, 1, 7, 6, 9); (0, 2, 0, 12, 16)]) ∧
  rec_altitude (0, 1, 7, 6, 9) ≤ rec_altitude (0, 2, 0, 12, 16) ∧
  (rec_altitude (0, 2, 0, 12, 16) = rec_altitude (0, 1, 7, 6, 9) ∨
   rec_altitude (0, 2, 0, 12, 16) = height_at [[0; 6; 12]] 0 2 ∧
   rec_altitude (0, 1, 7, 6, 9) < rec_altitude (0, 2, 0, 12, 16)).
Proof.
  assert (solve (PQ:=ListPQ) 1 3 10 6 [[0; 6; 12]] {[ (0, 0) ]} 10 =
          Some (Found 16 [(0, 0, 8, 6, 8); (0, 1, 7, 6, 9); (0, 2, 0, 12, 16)]))
    as Hs by (by vm_compute).
  split; [exact Hs|].
  exact (output_altitude_monotone
           (PQ:=ListPQ) 1 3 10 6 [[0; 6; 12]] {[ (0, 0) ]} _ _ _ 1%nat _ _
           Hs eq_refl eq_refl).
Defined.
